(** * Word frequencies of crawled Wikipedia articles

    A shallow embedding of [word_frequency_count.py] and of the request
    pipeline of [server_main.py], and the properties of the crawl, of the
    tokenizer and of the normalize / filter / sort stages.

    Modelling choices, all of them visible in the definitions below:
    - a Python [str] is a Rocq [string]: one [ascii] per code point, for the
      code points 0 to 255;
    - a Python [int] is a [Z];
    - a Python [float] percentage is an exact rational [Q]: rounding is not
      modelled, [/] and [*] are the exact operations;
    - a [dict] and a [Counter] are association lists in insertion order, with
      at most one entry per key;
    - a [set] of article titles is a [gset string];
    - [fetch_wikipedia_page], the network, is a function from titles to an
      optional (text, links) pair, taken as a type class;
    - a call that can raise returns a [result], [Raise e] for the exception;
    - the recursion of the crawl is driven by fuel, [None] meaning that the
      fuel ran out before the call returned. *)

From Stdlib Require Import ZArith QArith List Ascii String Lia Bool Sorted.
From stdpp Require Import base gmap strings list.

Local Open Scope Z_scope.

(** ** Characters and [str.lower] *)

Definition code (c : ascii) : N := N_of_ascii c.

Definition between (lo hi : N) (c : ascii) : bool :=
  ((lo <=? code c) && (code c <=? hi))%N.

Definition is_upper (c : ascii) : bool := between 65 90 c.
Definition is_lower (c : ascii) : bool := between 97 122 c.
Definition is_digit (c : ascii) : bool := between 48 57 c.

(** The character class [[a-zA-Z]]. *)
Definition is_alpha (c : ascii) : bool := is_lower c || is_upper c.

(** Code points 128 to 255 that are alphanumeric for [str.isalnum]: the
    ordinal indicators, the superscript digits, the micro sign, the vulgar
    fractions and the accented letters (all but the multiplication and the
    division sign). *)
Definition is_latin1_alnum (c : ascii) : bool :=
  (code c =? 170)%N || (code c =? 178)%N || (code c =? 179)%N
  || (code c =? 181)%N || (code c =? 185)%N || (code c =? 186)%N
  || between 188 190 c || between 192 214 c || between 216 246 c
  || between 248 255 c.

(** The character class [\w] of a [str] pattern: alphanumeric or underscore. *)
Definition is_word (c : ascii) : bool :=
  is_alpha c || is_digit c || (code c =? 95)%N || is_latin1_alnum c.

(** [str.lower] on one code point: [A-Z] and the accented capitals move up
    by 32, everything else stays. *)
Definition char_lower (c : ascii) : ascii :=
  if is_upper c || (between 192 222 c && negb (code c =? 215)%N)
  then ascii_of_N (code c + 32)
  else c.

Definition chars (s : string) : list ascii := list_ascii_of_string s.
Definition str (l : list ascii) : string := string_of_list_ascii l.

Definition lower (s : string) : string := str (map char_lower (chars s)).

(** ** [re.findall(r'\b[a-zA-Z]+\b', s)] *)

Definition opt_is_word (o : option ascii) : bool :=
  match o with Some c => is_word c | None => false end.

(** [\b] between two neighbours; [None] is the start or the end of the text. *)
Definition word_boundary (prev next : option ascii) : bool :=
  xorb (opt_is_word prev) (opt_is_word next).

(** How far the greedy [[a-zA-Z]+] can run. *)
Fixpoint alpha_prefix_len (s : list ascii) : nat :=
  match s with
  | c :: s' => if is_alpha c then S (alpha_prefix_len s') else O
  | [] => O
  end.

(** The closing [\b], tried at the longest run first, then at every shorter
    one down to one letter. *)
Fixpoint backtrack (s : list ascii) (n : nat) : option (list ascii * list ascii) :=
  match n with
  | O => None
  | S m =>
      if word_boundary (s !! m) (s !! n)
      then Some (take n s, drop n s)
      else backtrack s m
  end.

(** One match attempt at the current position; [prev] is the character
    just before it. *)
Definition match_at (prev : option ascii) (s : list ascii)
  : option (list ascii * list ascii) :=
  if word_boundary prev (head s) then backtrack s (alpha_prefix_len s) else None.

(** The scan of [findall]: after a match the scan resumes at its end, after
    a failure one character further. *)
Fixpoint findall_from (fuel : nat) (prev : option ascii) (s : list ascii)
  : list (list ascii) :=
  match fuel with
  | O => []
  | S fuel' =>
      match s with
      | [] => []
      | c :: s' =>
          match match_at prev s with
          | Some (tok, rest) => tok :: findall_from fuel' (last tok) rest
          | None => findall_from fuel' (Some c) s'
          end
      end
  end.

Definition findall (s : list ascii) : list (list ascii) :=
  findall_from (length s) None s.

(** The [words] of [get_word_frequency]. *)
Definition tokenize (text : string) : list string :=
  map str (findall (chars (lower text))).

(** ** Splitting a text into runs *)

(** The pieces of [s] between the characters that fail [p], empty pieces
    included. *)
Fixpoint chunks (p : ascii -> bool) (s : list ascii) : list (list ascii) :=
  match s with
  | [] => [[]]
  | c :: s' =>
      if p c
      then match chunks p s' with
           | h :: t => (c :: h) :: t
           | [] => [[c]]
           end
      else [] :: chunks p s'
  end.

Definition nonempty (r : list ascii) : bool :=
  match r with [] => false | _ => true end.

(** The maximal runs of characters that satisfy [p], from left to right. *)
Definition runs (p : ascii -> bool) (s : list ascii) : list (list ascii) :=
  filter (fun r => nonempty r = true) (chunks p s).

Definition all_alpha (r : list ascii) : bool := forallb is_alpha r.



(** ** Dictionaries in insertion order *)

Section Dict.
Context {V : Type}.

Fixpoint dict_get (k : string) (d : list (string * V)) : option V :=
  match d with
  | [] => None
  | (k', v) :: d' => if decide (k = k') then Some v else dict_get k d'
  end.

(** [k in d] *)
Definition dict_in (k : string) (d : list (string * V)) : bool :=
  match dict_get k d with Some _ => true | None => false end.

(** [d[k] = v]: an existing key keeps its place, a new one goes last. *)
Fixpoint dict_set (k : string) (v : V) (d : list (string * V)) : list (string * V) :=
  match d with
  | [] => [(k, v)]
  | (k', v') :: d' =>
      if decide (k = k') then (k, v) :: d' else (k', v') :: dict_set k v d'
  end.

(** [del d[k]] *)
Definition dict_del (k : string) (d : list (string * V)) : list (string * V) :=
  filter (fun kv => kv.1 <> k) d.
End Dict.

(** ** [collections.Counter] *)

Definition Counter : Type := list (string * Z).

(** [c[k]], also [c.get(k, 0)]: a missing key counts 0. *)
Definition counter_get (k : string) (c : Counter) : Z :=
  match dict_get k c with Some n => n | None => 0 end.

(** [Counter(words)]: one more for each element, in order. *)
Definition count_elements (words : list string) (c : Counter) : Counter :=
  foldl (fun acc w => dict_set w (counter_get w acc + 1) acc) c words.

(** [c.update(other)]: the counts of [other] are added to those of [c]. *)
Definition counter_update (c other : Counter) : Counter :=
  foldl (fun acc kv => dict_set kv.1 (kv.2 + counter_get kv.1 acc) acc) c other.

(** [c.total()] *)
Definition total (c : Counter) : Z := foldl Z.add 0 (map snd c).

(** ** Exceptions *)

Inductive exn : Type := ZeroDivisionError.

Inductive result (A : Type) : Type :=
| Ok (a : A)
| Raise (e : exn).
Arguments Ok {A} a.
Arguments Raise {A} e.

Definition bind {A B : Type} (r : result A) (k : A -> result B) : result B :=
  match r with
  | Ok a => k a
  | Raise e => Raise e
  end.

Notation "'let!' x ':=' r 'in' k" := (bind r (fun x => k))
  (at level 10, x name, r at level 100, k at level 200).

(** A comprehension whose element expression can raise. *)
Fixpoint comprehension {A B : Type} (f : A -> result B) (l : list A) : result (list B) :=
  match l with
  | [] => Ok []
  | a :: l' => let! b := f a in let! bs := comprehension f l' in Ok (b :: bs)
  end.

(** [a / b] on two [int]s. *)
Definition true_div (a b : Z) : result Q :=
  if b =? 0 then Raise ZeroDivisionError else Ok (inject_Z a / inject_Z b)%Q.

(** ** word_frequency_count.py *)

(** A word with its count and its percentage. *)
Definition entries : Type := list (string * (Z * Q)).

Definition apply_percentile_threshold (word_frequency : entries) (percentile : Q)
  : entries :=
  filter (fun e => Qle_bool percentile e.2.2 = true) word_frequency.

Definition get_word_frequency (text : string) : Counter :=
  count_elements (tokenize text) [].

Definition normalize_word_frequency (word_frequency : Counter) : result entries :=
  let total_count := total word_frequency in
  comprehension
    (fun wc => let! q := true_div wc.2 total_count in Ok (wc.1, (wc.2, (q * 100)%Q)))
    word_frequency.

(** The mockable [fetch_wikipedia_page]: the text and the links of an
    article, or [None] for the pair [(None, None)]. *)
Class DocumentSource : Type :=
  fetch_wikipedia_page : string -> option (string * list string).

(** What a crawl mutates: the two accumulators, and the lines
    [Fetching: article (Depth depth)] it prints, one before each fetch. *)
Record crawl_state : Type := CrawlState {
  visited : gset string;
  word_frequency : Counter;
  stdout : list (string * Z)
}.

Definition fresh : crawl_state :=
  {| visited := ∅; word_frequency := []; stdout := [] |}.

(** The [for link in links] loop around a recursive call [visit]. *)
Fixpoint for_links (visit : string -> crawl_state -> option crawl_state)
    (links : list string) (st : crawl_state) : option crawl_state :=
  match links with
  | [] => Some st
  | link :: links' =>
      if decide (link ∈ visited st)
      then for_links visit links' st
      else match visit link st with
           | Some st' => for_links visit links' st'
           | None => None
           end
  end.

(** [visited.add(article)], then the line printed before the fetch. *)
Definition mark_visited (article : string) (depth : Z) (st : crawl_state) : crawl_state :=
  {| visited := {[article]} ∪ visited st;
     word_frequency := word_frequency st;
     stdout := stdout st ++ [(article, depth)] |}.

(** [word_frequency.update(get_word_frequency(text))] *)
Definition merge_page (text : string) (st : crawl_state) : crawl_state :=
  {| visited := visited st;
     word_frequency := counter_update (word_frequency st) (get_word_frequency text);
     stdout := stdout st |}.

Fixpoint crawl_wikipedia_article `{DocumentSource} (fuel : nat)
    (article : string) (depth : Z) (st : crawl_state) : option crawl_state :=
  match fuel with
  | O => None
  | S fuel' =>
      if depth =? 0 then Some st
      else if decide (article ∈ visited st) then Some st
      else
        let st := mark_visited article depth st in
        match fetch_wikipedia_page article with
        | None => Some st
        | Some (text, links) =>
            for_links (fun link s => crawl_wikipedia_article fuel' link (depth - 1) s)
              links (merge_page text st)
        end
  end.

(** The articles fetched by a crawl, in the order of the fetches. *)
Definition fetched (st : crawl_state) : list string := map fst (stdout st).

(** ** server_main.py, [do_POST] *)

(** Lines 86 to 90: the ignore list is lower-cased and its words deleted. *)
Definition exclude_words {V : Type} (ignore_list : list string)
    (d : list (string * V)) : list (string * V) :=
  foldl (fun acc ignore_word => if dict_in ignore_word acc then dict_del ignore_word acc else acc)
    d (map lower ignore_list).

(** [sorted(items, key=count, reverse=True)]: a stable sort, greatest count
    first; [x] comes before the elements of [l] in the input. *)
Fixpoint insert_desc (x : string * (Z * Q)) (l : entries) : entries :=
  match l with
  | [] => [x]
  | y :: l' => if x.2.1 <? y.2.1 then y :: insert_desc x l' else x :: l
  end.

Definition sorted_desc (l : entries) : entries := foldr insert_desc [] l.

(** Lines 86 to 102, from the crawled counter to the mapping of the response. *)
Definition post_pipeline (wf : Counter) (ignore_list : list string) (percentile : Q)
  : result entries :=
  let wf' := exclude_words ignore_list wf in
  let! normalized_filtered := normalize_word_frequency wf' in
  Ok (sorted_desc (apply_percentile_threshold normalized_filtered percentile)).


Record post_data : Type := PostData {
  data_article : option string;
  data_depth : option Z;
  data_ignore_list : option (list string);
  data_percentile : option Q
}.

Inductive response : Type :=
| Response200 (word_frequency : entries)
| Response400
| Response500.

Definition do_POST `{DocumentSource} (fuel : nat) (data : post_data) : option response :=
  let depth := default 1 (data_depth data) in
  let ignore_list := default [] (data_ignore_list data) in
  let percentile := default 1%Q (data_percentile data) in
  match data_article data with
  | None => Some Response400
  | Some EmptyString => Some Response400
  | Some article =>
      match crawl_wikipedia_article fuel article depth fresh with
      | None => None
      | Some st =>
          match post_pipeline (word_frequency st) ignore_list percentile with
          | Ok sorted_filtered => Some (Response200 sorted_filtered)
          | Raise _ => Some Response500
          end
      end
  end.

(** ** Invariants of the accumulators *)

(** Every stored count is at least 1. *)
Definition positive_counts (c : Counter) : Prop :=
  Forall (fun kv => 1 <= kv.2) c.

(** [c'] has every key of [c], and counts every word at least as often. *)
Definition counter_le (c c' : Counter) : Prop :=
  forall w, counter_get w c <= counter_get w c'
            /\ (dict_in w c = true -> dict_in w c' = true).

(** Every link that a fetch can return lies in [universe]. *)
Definition links_within `{DocumentSource} (universe : gset string) : Prop :=
  forall article text links,
    fetch_wikipedia_page article = Some (text, links) ->
    forall link, link ∈ links -> link ∈ universe.

(** What [normalize_word_frequency] makes of one item when the total [t]
    is not 0. *)
Definition percent (t : Z) (wc : string * Z) : string * (Z * Q) :=
  (wc.1, (wc.2, (inject_Z wc.2 / inject_Z t * 100)%Q)).

(** [x] may stand before [y] in a list sorted by decreasing count. *)
Definition count_ge (x y : string * (Z * Q)) : Prop := y.2.1 <= x.2.1.

(** A chunk that becomes a token: not empty, letters only. *)
Definition kept (r : list ascii) : Prop := nonempty r = true /\ all_alpha r = true.

(** One crawl step leaves [st'] with at least the titles and the counts
    of [st]. *)
Definition grows (st st' : crawl_state) : Prop :=
  visited st ⊆ visited st' /\ counter_le (word_frequency st) (word_frequency st').

(** The fetch log lists visited titles only, each one once. *)
Definition fetched_once (st : crawl_state) : Prop :=
  (forall a, a ∈ fetched st -> a ∈ visited st) /\ NoDup (fetched st).


(** ** Document sources for the examples *)

(** The two pages of the doctest of [crawl_wikipedia_article]. *)
Definition doctest_source : DocumentSource := fun article =>
  if decide (article = "Python_(programming_language)"%string) then
    Some ("This is Python content."%string,
          ["Python_(programming_language)"; "List_of_programming_languages"]%string)
  else if decide (article = "List_of_programming_languages"%string) then
    Some ("This is List of programming languages content."%string,
          ["Programming_language"; "Python_(programming_language)"]%string)
  else None.

(** A links to B and C, B links back to A, C has no links. *)
Definition abc_source : DocumentSource := fun article =>
  if decide (article = "A"%string) then Some ("a"%string, ["B"; "C"]%string)
  else if decide (article = "B"%string) then Some ("b"%string, ["A"]%string)
  else if decide (article = "C"%string) then Some ("c"%string, [])
  else None.

(** A and B link to each other and to themselves. *)
Definition cyclic_source : DocumentSource := fun article =>
  if decide (article = "A"%string) then Some ("x y"%string, ["A"; "B"]%string)
  else if decide (article = "B"%string) then Some ("y"%string, ["B"; "A"]%string)
  else None.

(** No article exists. *)
Definition empty_source : DocumentSource := fun _ => None.

(** ** [fetch_wikipedia_page], the links of a page *)

(** [s.startswith(p)] *)
Fixpoint startswith (p s : list ascii) : bool :=
  match p, s with
  | [], _ => true
  | a :: p', b :: s' => if decide (a = b) then startswith p' s' else false
  | _ :: _, [] => false
  end.

(** The character class [[a-z_]]. *)
Definition is_lower_ (c : ascii) : bool := is_lower c || (code c =? 95)%N.

(** How far the greedy [[a-z_]*] can run. *)
Fixpoint lower_prefix_len (s : list ascii) : nat :=
  match s with
  | c :: s' => if is_lower_ c then S (lower_prefix_len s') else O
  | [] => O
  end.

(** The closing [:], tried after the longest run first, then after every
    shorter one down to the empty run. *)
Fixpoint colon_after (s : list ascii) (n : nat) : bool :=
  match s !! n with
  | Some ":"%char => true
  | _ => match n with
         | O => false
         | S m => colon_after s m
         end
  end.

(** [invalid_link_pattern.match(link)] for the pattern [^[A-Z][a-z_]*:],
    as a truth value. *)
Definition invalid_link (link : string) : bool :=
  match chars link with
  | c :: s => is_upper c && colon_after s (lower_prefix_len s)
  | [] => false
  end.

(** Lines 76 to 80: from the [href] values of the anchors of the page, in
    document order, to the links that are returned. *)
Definition wiki_links (hrefs : list string) : list string :=
  let links :=
    map (fun href => str (drop 6 (chars href)))
        (filter (fun href => startswith (chars "/wiki/") (chars href) = true) hrefs) in
  filter (fun link => invalid_link link = false) links.

(** ** server_main.py, [do_GET] *)

(** [int(s)] on a query value, [None] when it raises [ValueError]. *)
Class IntParser : Type := py_int : string -> option Z.

(** [query_params.get(key, [default])[0]] on the dictionary of [parse_qs];
    the outer [None] is the [IndexError] of an empty list. *)
Definition first_value {A : Type} (key : string) (default : A) (of_string : string -> A)
    (query_params : list (string * list string)) : option A :=
  match dict_get key query_params with
  | None => Some default
  | Some [] => None
  | Some (v :: _) => Some (of_string v)
  end.

(** From the parsed query to the response. The depth is read, and can fail,
    before the title is looked at; the body of a 200 is the normalized
    table, unfiltered and in insertion order. *)
Definition do_GET `{DocumentSource} `{IntParser} (fuel : nat)
    (query_params : list (string * list string)) : option response :=
  match first_value "title" None Some query_params with
  | None => Some Response500
  | Some article =>
      match first_value "depth" (Some 1) py_int query_params with
      | None | Some None => Some Response500
      | Some (Some depth) =>
          match article with
          | None | Some EmptyString => Some Response400
          | Some article =>
              match crawl_wikipedia_article fuel article depth fresh with
              | None => None
              | Some st =>
                  match normalize_word_frequency (word_frequency st) with
                  | Ok normalized_word_frequency => Some (Response200 normalized_word_frequency)
                  | Raise _ => Some Response500
                  end
              end
          end
      end
  end.

(** ** What the further properties speak of *)

(** How often [w] stands in [words]. *)
Definition occurrences (w : string) (words : list string) : Z :=
  Z.of_nat (length (filter (fun x => x = w) words)).

(** The tokens of the page of [article], none when it is not found. *)
Definition page_words `{DocumentSource} (article : string) : list string :=
  match fetch_wikipedia_page article with
  | Some (text, _) => tokenize text
  | None => []
  end.

(** A dictionary holds each key once. *)
Definition unique_keys {V : Type} (d : list (string * V)) : Prop := NoDup (map fst d).


(** Plain decimal numerals with an optional minus sign, for the examples. *)
Fixpoint decimal_digits (acc : Z) (s : list ascii) : option Z :=
  match s with
  | [] => Some acc
  | c :: s' =>
      if is_digit c
      then decimal_digits (10 * acc + Z.of_N (code c - 48)) s'
      else None
  end.

Definition decimal_int : IntParser := fun s =>
  match chars s with
  | [] => None
  | "-"%char :: [] => None
  | "-"%char :: s' => option_map Z.opp (decimal_digits 0 s')
  | s' => decimal_digits 0 s'
  end.

(** The body of a GET for [A] at depth 2 on [abc_source]. *)
Definition abc_body : entries :=
  [("a"%string, (1, (1 / 3 * 100)%Q)); ("b"%string, (1, (1 / 3 * 100)%Q));
   ("c"%string, (1, (1 / 3 * 100)%Q))].

(** The lines [new] were printed, their titles marked visited and the tokens
    of their pages counted, between [st] and [st']. *)
Definition accounts `{DocumentSource} (st st' : crawl_state) (new : list (string * Z)) : Prop :=
  stdout st' = stdout st ++ new
  /\ visited st' = visited st ∪ list_to_set (map fst new)
  /\ (forall w, counter_get w (word_frequency st')
                = counter_get w (word_frequency st)
                  + occurrences w (concat (map page_words (map fst new))))
  /\ total (word_frequency st')
     = total (word_frequency st)
       + Z.of_nat (length (concat (map page_words (map fst new)))).

(** * Properties *)

(** ** The doctests *)

Example tokenize_doctest :
  tokenize "Python is great! Python is fun." =
  ["python"; "is"; "great"; "python"; "is"; "fun"]%string.
Proof. reflexivity. Qed.

Example get_word_frequency_doctest :
  get_word_frequency "Python is great! Python is fun." =
  [("python", 2); ("is", 2); ("great", 1); ("fun", 1)]%string.
Proof. reflexivity. Qed.

Example get_word_frequency_empty : get_word_frequency "" = [].
Proof. reflexivity. Qed.

Example normalize_word_frequency_doctest :
  normalize_word_frequency [("apple", 1); ("orange", 1)]%string
  = Ok [("apple"%string, (1, (1 / 2 * 100)%Q)); ("orange"%string, (1, (1 / 2 * 100)%Q))].
Proof. reflexivity. Qed.

Example crawl_doctest :
  crawl_wikipedia_article (H := doctest_source) 3 "Python_(programming_language)" 2 fresh
  = Some {| visited := {["List_of_programming_languages"; "Python_(programming_language)"]}%string;
            word_frequency := [("this", 2); ("is", 2); ("python", 1); ("content", 2);
                               ("list", 1); ("of", 1); ("programming", 1); ("languages", 1)]%string;
            stdout := [("Python_(programming_language)", 2); ("List_of_programming_languages", 1)]%string |}.
Proof. vm_compute. reflexivity. Qed.

(** ** The tokenizer *)

Lemma is_alpha_is_word c : is_alpha c = true -> is_word c = true.
Proof. intros H. unfold is_word. rewrite H. reflexivity. Qed.

Lemma lookup_alpha_prefix s i :
  (i < alpha_prefix_len s)%nat -> exists c, s !! i = Some c /\ is_alpha c = true.
Proof.
  revert i. induction s as [|c s IH]; intros i Hi; simpl in *.
  - lia.
  - destruct (is_alpha c) eqn:Hc; [|lia].
    destruct i as [|i]; simpl.
    + eauto.
    + apply IH. lia.
Qed.

Lemma backtrack_inside s n :
  (n < alpha_prefix_len s)%nat -> backtrack s n = None.
Proof.
  induction n as [|n IH]; intros Hn; simpl.
  - reflexivity.
  - destruct (lookup_alpha_prefix s n) as (a & -> & Ha); [lia|].
    destruct (lookup_alpha_prefix s (S n)) as (b & -> & Hb); [lia|].
    unfold word_boundary; simpl.
    rewrite (is_alpha_is_word _ Ha), (is_alpha_is_word _ Hb). simpl.
    apply IH. lia.
Qed.

(** [chunks] cuts at every character that fails [p], and nowhere else. *)
Lemma chunks_all p r : forallb p r = true -> chunks p r = [r].
Proof.
  induction r as [|c r IH]; simpl; [done|].
  intros [Hc Hr]%andb_true_iff. by rewrite Hc, IH.
Qed.

Lemma chunks_sep p r c s :
  forallb p r = true -> p c = false -> chunks p (r ++ c :: s) = r :: chunks p s.
Proof.
  intros Hr Hc. induction r as [|a r IH]; simpl.
  - by rewrite Hc.
  - simpl in Hr. apply andb_true_iff in Hr as [Ha Hr]. by rewrite Ha, IH.
Qed.

Lemma chunks_cons p s : exists h t, chunks p s = h :: t.
Proof. destruct s as [|c s]; simpl; [eauto|]. destruct (p c); [|eauto]. destruct (chunks p s); eauto. Qed.

Lemma chunks_alpha_prefix s :
  exists h t, chunks is_word (drop (alpha_prefix_len s) s) = h :: t
              /\ chunks is_word s = (take (alpha_prefix_len s) s ++ h) :: t.
Proof.
  induction s as [|c s IH]; simpl.
  - eauto.
  - destruct (is_alpha c) eqn:Hc; simpl.
    + destruct IH as (h & t & Hd & Hs). rewrite (is_alpha_is_word _ Hc), Hs. eauto.
    + destruct (chunks_cons is_word (c :: s)) as (h & t & E). simpl in E. rewrite E. eauto.
Qed.

Lemma all_alpha_prefix s : all_alpha (take (alpha_prefix_len s) s) = true.
Proof.
  induction s as [|c s IH]; simpl; [reflexivity|].
  destruct (is_alpha c) eqn:Hc; simpl; [|reflexivity]. by rewrite Hc.
Qed.

Lemma lookup_prefix_end s c :
  s !! alpha_prefix_len s = Some c -> is_alpha c = false.
Proof.
  induction s as [|a s IH]; simpl; [done|].
  destruct (is_alpha a) eqn:Ha; simpl; [done|]. by intros [= <-].
Qed.

Lemma all_alpha_app r1 r2 : all_alpha (r1 ++ r2) = all_alpha r1 && all_alpha r2.
Proof. apply forallb_app. Qed.

Lemma head_drop {A} (s : list A) n : head (drop n s) = s !! n.
Proof. revert n; induction s as [|a s IH]; intros [|n]; simpl; auto. Qed.

Lemma last_take_S {A} (s : list A) n :
  (n < length s)%nat -> last (take (S n) s) = s !! n.
Proof.
  revert n; induction s as [|a s IH]; intros n Hn; simpl in *; [lia|].
  destruct n as [|n]; simpl.
  - by destruct s.
  - specialize (IH n ltac:(lia)). simpl in IH.
    destruct s as [|b s]; simpl in *; [lia|]. exact IH.
Qed.

Lemma findall_from_chunks fuel : forall prev s,
  (length s <= fuel)%nat ->
  findall_from fuel prev s =
  filter kept (if opt_is_word prev then tail (chunks is_word s) else chunks is_word s).
Proof.
  induction fuel as [|fuel IH]; intros prev s Hlen.
  - destruct s; simpl in *; [|lia]. by destruct (opt_is_word prev).
  - destruct s as [|c s']; [by destruct (opt_is_word prev)|].
    cbn [findall_from]. simpl in Hlen.
    destruct (is_word c) eqn:Hw.
    + (* a word character *)
      destruct (chunks_cons is_word s') as (h0 & t0 & E0).
      assert (Ec : chunks is_word (c :: s') = (c :: h0) :: t0) by (simpl; by rewrite Hw, E0).
      destruct (opt_is_word prev) eqn:Hp.
      * (* no opening boundary *)
        unfold match_at, word_boundary. simpl head. simpl opt_is_word at 2.
        rewrite Hp, Hw. simpl xorb. cbv iota.
        rewrite IH by lia. simpl opt_is_word. rewrite Hw, E0, Ec. reflexivity.
      * (* opening boundary *)
        unfold match_at, word_boundary. simpl head. simpl opt_is_word at 2.
        rewrite Hp, Hw. simpl xorb. cbv iota.
        destruct (is_alpha c) eqn:Ha.
        -- set (s := c :: s') in *.
           assert (Hn : alpha_prefix_len s = S (alpha_prefix_len s')) by (simpl; by rewrite Ha).
           destruct (chunks_alpha_prefix s) as (h & t & Hd & Hs).
           pose proof (all_alpha_prefix s) as Hall.
           rewrite Hn in *. cbn [backtrack].
           destruct (lookup_alpha_prefix s (alpha_prefix_len s')) as (a & Hla & Haa); [lia|].
           rewrite Hla. unfold word_boundary. simpl opt_is_word at 1.
           rewrite (is_alpha_is_word _ Haa).
           destruct (opt_is_word (s !! S (alpha_prefix_len s'))) eqn:Hnext; simpl xorb; cbv iota.
           ++ (* the run is followed by a word character: no match *)
              rewrite backtrack_inside by lia.
              rewrite IH by lia. simpl opt_is_word. rewrite Hw, E0.
              simpl tail. rewrite Hs in Ec. injection Ec as Eh Et.
              destruct (s !! S (alpha_prefix_len s')) as [d|] eqn:Hd'; [|done].
              pose proof (lookup_prefix_end s d) as Hnd. rewrite Hn in Hnd.
              specialize (Hnd Hd').
              rewrite <- head_drop in Hd'.
              destruct (drop (S (alpha_prefix_len s')) s) as [|d0 rest] eqn:Hdr; [done|].
              simpl in Hd'. injection Hd' as ->. simpl in Hnext.
              simpl in Hd. rewrite Hnext in Hd.
              destruct (chunks_cons is_word rest) as (h1 & t1 & E1). rewrite E1 in Hd.
              injection Hd as <- <-.
              rewrite Hs, filter_cons_False; [by subst|].
              intros [_ Hk]. rewrite all_alpha_app in Hk.
              apply andb_true_iff in Hk as [_ Hk]. simpl in Hk. by rewrite Hnd in Hk.
           ++ (* the run ends at a boundary: a match *)
              rewrite last_take_S, Hla.
              2:{ apply lookup_lt_Some in Hla. exact Hla. }
              rewrite IH.
              2:{ rewrite length_drop. subst s. simpl. lia. }
              simpl opt_is_word. rewrite (is_alpha_is_word _ Haa).
              rewrite Hs, Hd. simpl tail.
              assert (h = []) as ->.
              { rewrite <- head_drop in Hnext.
                destruct (drop (S (alpha_prefix_len s')) s) as [|d0 rest]; simpl in Hd.
                - by injection Hd as <- <-.
                - simpl in Hnext. rewrite Hnext in Hd. by injection Hd as <- <-. }
              rewrite app_nil_r. rewrite filter_cons_True; [done|].
              split; [by subst s|exact Hall].
        -- (* not a letter: nothing to match *)
           simpl alpha_prefix_len. rewrite Ha. cbn [backtrack].
           rewrite IH by lia. simpl opt_is_word. rewrite Hw, E0, Ec. simpl tail.
           rewrite filter_cons_False; [done|].
           intros [_ Hk]. simpl in Hk. by rewrite Ha in Hk.
    + (* a separator *)
      assert (Ha : is_alpha c = false).
      { destruct (is_alpha c) eqn:Ha; [|done]. apply is_alpha_is_word in Ha. congruence. }
      assert (Hm : match_at prev (c :: s') = None).
      { unfold match_at. destruct (word_boundary _ _); [|done]. simpl. by rewrite Ha. }
      rewrite Hm, IH by lia. simpl opt_is_word. rewrite Hw. simpl chunks. rewrite Hw.
      destruct (opt_is_word prev); simpl tail; [done|].
      rewrite filter_cons_False; [done|]. by intros [Hk _].
Qed.

Lemma findall_runs s :
  findall s = filter (fun r => all_alpha r = true) (runs is_word s).
Proof.
  unfold findall, runs. rewrite findall_from_chunks by lia. simpl.
  rewrite list_filter_filter. apply list_filter_iff. intros r. unfold kept. tauto.
Qed.



Lemma chars_str l : chars (str l) = l.
Proof. apply list_ascii_of_string_of_list_ascii. Qed.






(** ** Dictionaries *)

Section DictFacts.
Context {V : Type}.
Implicit Types (d : list (string * V)) (k : string) (v : V).

Lemma dict_get_set_eq k v d : dict_get k (dict_set k v d) = Some v.
Proof.
  induction d as [|[k' v'] d IH]; simpl.
  - by rewrite decide_True.
  - destruct (decide (k = k')) as [->|Hne]; simpl.
    + by rewrite decide_True.
    + by rewrite decide_False.
Qed.

Lemma dict_get_set_ne k k' v d : k <> k' -> dict_get k' (dict_set k v d) = dict_get k' d.
Proof.
  intros Hne. induction d as [|[k0 v0] d IH]; simpl.
  - by rewrite decide_False.
  - destruct (decide (k = k0)) as [->|Hk]; simpl.
    + by rewrite !decide_False.
    + by rewrite IH.
Qed.

Lemma dict_get_Some k v d : dict_get k d = Some v -> (k, v) ∈ d.
Proof.
  induction d as [|[k' v'] d IH]; simpl; [done|].
  destruct (decide (k = k')) as [->|Hne].
  - intros [= ->]. left.
  - intros H. right. auto.
Qed.

Lemma dict_set_elem k v d e : e ∈ dict_set k v d -> e = (k, v) \/ e ∈ d.
Proof.
  induction d as [|[k' v'] d IH]; simpl.
  - intros H. apply list_elem_of_singleton in H. by left.
  - destruct (decide (k = k')) as [->|Hne]; intros H; apply elem_of_cons in H as [->|H].
    + by left.
    + right. by right.
    + right. left.
    + destruct (IH H); [by left|right; by right].
Qed.

Lemma dict_del_absent k d : dict_in k d = false -> dict_del k d = d.
Proof.
  unfold dict_in, dict_del. induction d as [|[k' v'] d IH]; simpl; [done|].
  destruct (decide (k = k')) as [->|Hne]; [done|].
  intros H. rewrite filter_cons_True by (simpl; congruence). by rewrite IH.
Qed.
End DictFacts.

Lemma filter_all {A} (P : A -> Prop) `{forall x, Decision (P x)} (l : list A) :
  (forall x, x ∈ l -> P x) -> filter P l = l.
Proof.
  induction l as [|a l IH]; intros Hall; [done|].
  rewrite filter_cons_True by (apply Hall; left).
  rewrite IH; [done|]. intros x Hx. apply Hall. by right.
Qed.

(** ** Exclusion *)

Lemma exclude_words_filter {V} (ignore_list : list string) (d : list (string * V)) :
  exclude_words ignore_list d = filter (fun kv => kv.1 ∉ map lower ignore_list) d.
Proof.
  unfold exclude_words. generalize (map lower ignore_list) as ws.
  intros ws. revert d. induction ws as [|w ws IH]; intros d; simpl.
  - symmetry. apply filter_all. intros kv _. apply not_elem_of_nil.
  - rewrite IH.
    assert (E : (if dict_in w d then dict_del w d else d) = dict_del w d).
    { destruct (dict_in w d) eqn:Hin; [done|]. symmetry. by apply dict_del_absent. }
    rewrite E. unfold dict_del. rewrite list_filter_filter.
    apply list_filter_iff. intros kv. rewrite not_elem_of_cons. tauto.
Qed.

Lemma exclude_words_idem {V} (ignore_list : list string) (d : list (string * V)) :
  exclude_words ignore_list (exclude_words ignore_list d) = exclude_words ignore_list d.
Proof.
  rewrite !exclude_words_filter. by apply list_filter_filter_r.
Qed.

(** ** Percentile filter *)

Lemma apply_percentile_threshold_elem (m : entries) (percentile : Q) (e : string * (Z * Q)) :
  e ∈ apply_percentile_threshold m percentile <-> e ∈ m /\ (percentile <= e.2.2)%Q.
Proof.
  unfold apply_percentile_threshold. rewrite list_elem_of_filter, Qle_bool_iff. tauto.
Qed.

(** ** Counters *)

Lemma foldl_add a l : foldl Z.add a l = a + foldl Z.add 0 l.
Proof.
  revert a. induction l as [|x l IH]; intros a; simpl; [lia|].
  rewrite (IH (a + x)), (IH (0 + x)). lia.
Qed.

Lemma total_nil : total [] = 0.
Proof. reflexivity. Qed.

Lemma total_cons k n c : total ((k, n) :: c) = n + total c.
Proof. unfold total. simpl. apply foldl_add. Qed.

Lemma positive_counts_total c : positive_counts c -> c <> [] -> 0 < total c.
Proof.
  unfold positive_counts. induction 1 as [|[k n] c Hn Hc IH]; intros Hne; [done|].
  rewrite total_cons. simpl in Hn.
  destruct c as [|e c]; [rewrite total_nil; lia|].
  specialize (IH ltac:(done)). lia.
Qed.

Lemma positive_counts_total_0 c : positive_counts c -> total c = 0 -> c = [].
Proof.
  intros Hpos Ht. destruct c as [|e c]; [done|].
  pose proof (positive_counts_total _ Hpos ltac:(done)). lia.
Qed.

(** ** Normalisation *)

Lemma comprehension_percent t (c : Counter) :
  t <> 0 ->
  comprehension
    (fun wc => let! q := true_div wc.2 t in Ok (wc.1, (wc.2, (q * 100)%Q))) c
  = Ok (map (percent t) c).
Proof.
  intros Ht. induction c as [|wc c IH]; simpl; [done|].
  unfold true_div at 1. rewrite (proj2 (Z.eqb_neq t 0) Ht). simpl.
  rewrite IH. reflexivity.
Qed.

Lemma normalize_word_frequency_ok c :
  total c <> 0 -> normalize_word_frequency c = Ok (map (percent (total c)) c).
Proof. intros Ht. unfold normalize_word_frequency. by apply comprehension_percent. Qed.



Lemma normalize_word_frequency_positive c :
  positive_counts c -> normalize_word_frequency c = Ok (map (percent (total c)) c).
Proof.
  intros Hpos. destruct c as [|wc c]; [reflexivity|].
  apply normalize_word_frequency_ok.
  pose proof (positive_counts_total _ Hpos ltac:(done)). lia.
Qed.



(** ** Sorting *)

Lemma insert_desc_perm x l : insert_desc x l ≡ₚ x :: l.
Proof.
  induction l as [|y l IH]; simpl; [done|].
  destruct (x.2.1 <? y.2.1); [|done].
  rewrite IH. apply Permutation_swap.
Qed.

Lemma sorted_desc_perm l : sorted_desc l ≡ₚ l.
Proof.
  induction l as [|x l IH]; simpl; [done|].
  rewrite insert_desc_perm. by rewrite IH.
Qed.

Lemma insert_desc_sorted x l :
  StronglySorted count_ge l -> StronglySorted count_ge (insert_desc x l).
Proof.
  induction 1 as [|y l Hl IH Hy]; simpl.
  - repeat constructor.
  - destruct (x.2.1 <? y.2.1) eqn:E.
    + apply Z.ltb_lt in E. constructor; [done|].
      apply Forall_forall. intros z Hz.
      rewrite insert_desc_perm in Hz.
      apply elem_of_cons in Hz as [->|Hz]; [unfold count_ge; lia|].
      rewrite Forall_forall in Hy. by apply Hy.
    + apply Z.ltb_ge in E. constructor; [by constructor|].
      constructor; [done|].
      eapply Forall_impl; [exact Hy|]. unfold count_ge. simpl. intros z Hz. lia.
Qed.

Lemma sorted_desc_sorted l : StronglySorted count_ge (sorted_desc l).
Proof.
  induction l as [|x l IH]; simpl; [constructor|]. by apply insert_desc_sorted.
Qed.

Lemma positive_counts_exclude il c :
  positive_counts c -> positive_counts (exclude_words il c).
Proof.
  unfold positive_counts. rewrite exclude_words_filter, !Forall_forall.
  intros H x Hx. apply H. by apply list_elem_of_filter in Hx as [_ Hx].
Qed.

(** ** The stages of the pipeline *)

(** C5. A frequency table (every stored count is at least 1) whose total is 0
    is normalized to the empty mapping: no division is attempted and nothing
    is raised. *)
Theorem normalize_total_zero (c : Counter) :
  positive_counts c -> total c = 0 -> normalize_word_frequency c = Ok [].
Proof.
  intros Hpos Ht. rewrite (positive_counts_total_0 c Hpos Ht). reflexivity.
Qed.

Lemma normalize_total_zero_witness : normalize_word_frequency [] = Ok [].
Proof. apply (normalize_total_zero []); [constructor | reflexivity]. Defined.



(** C7. The percentile filter keeps exactly the entries whose percentage is
    greater than or equal to the threshold, in their order: an entry at the
    threshold stays, an entry below it goes. *)
Theorem apply_percentile_threshold_inclusive (m : entries) (percentile : Q) :
  (forall e, e ∈ apply_percentile_threshold m percentile
             <-> e ∈ m /\ (percentile <= e.2.2)%Q)
  /\ (forall e, e ∈ m -> (e.2.2 == percentile)%Q ->
                e ∈ apply_percentile_threshold m percentile)
  /\ (forall e, (e.2.2 < percentile)%Q -> e ∉ apply_percentile_threshold m percentile)
  /\ sublist (apply_percentile_threshold m percentile) m.
Proof.
  split; [|split; [|split]].
  - intros e. apply apply_percentile_threshold_elem.
  - intros e He Heq. apply apply_percentile_threshold_elem. split; [done|].
    rewrite Heq. apply Qle_refl.
  - intros e Hlt Hin. apply apply_percentile_threshold_elem in Hin as [_ Hle].
    by apply Qlt_not_le in Hlt.
  - apply sublist_filter.
Qed.

Lemma apply_percentile_threshold_inclusive_witness :
  ("w"%string, (5, 25%Q)) ∈ apply_percentile_threshold [("w"%string, (5, 25%Q))] 25
  /\ ("w"%string, (5, 25%Q)) ∉ apply_percentile_threshold [("w"%string, (5, 25%Q))] (251 # 10).
Proof.
  split.
  - apply (proj1 (proj2 (apply_percentile_threshold_inclusive [("w"%string, (5, 25%Q))] 25))).
    + left.
    + reflexivity.
  - apply (proj1 (proj2 (proj2 (apply_percentile_threshold_inclusive
                                  [("w"%string, (5, 25%Q))] (251 # 10))))).
    reflexivity.
Defined.

Example apply_percentile_threshold_doctest :
  match normalize_word_frequency
          [("python", 50); ("programming", 30); ("language", 25); ("code", 10)]%string with
  | Ok m => map fst (apply_percentile_threshold m 25)
  | Raise _ => []
  end = ["python"; "programming"]%string.
Proof. reflexivity. Qed.

(** C9. Exclusion is idempotent: excluding the same ignore list a second time
    changes nothing, for a counter or for any other mapping keyed by words. *)
Theorem exclude_words_idempotent {V : Type} (ignore_list : list string)
    (d : list (string * V)) :
  exclude_words ignore_list (exclude_words ignore_list d) = exclude_words ignore_list d.
Proof. apply exclude_words_idem. Qed.

(** ** The pipeline of [do_POST] *)

Lemma post_pipeline_positive (wf : Counter) (ignore_list : list string) (percentile : Q) :
  positive_counts wf ->
  post_pipeline wf ignore_list percentile
  = Ok (sorted_desc (apply_percentile_threshold
          (map (percent (total (exclude_words ignore_list wf)))
               (exclude_words ignore_list wf)) percentile)).
Proof.
  intros Hpos. unfold post_pipeline.
  by rewrite (normalize_word_frequency_positive _ (positive_counts_exclude ignore_list wf Hpos)).
Qed.




(** ** Counters grow *)

Lemma positive_counts_set k v (c : Counter) :
  1 <= v -> positive_counts c -> positive_counts (dict_set k v c).
Proof.
  unfold positive_counts. intros Hv Hc. apply Forall_forall. intros e He.
  apply dict_set_elem in He as [->|He]; [done|].
  rewrite Forall_forall in Hc. by apply Hc.
Qed.

Lemma counter_get_nonneg k (c : Counter) : positive_counts c -> 0 <= counter_get k c.
Proof.
  intros Hc. unfold counter_get. destruct (dict_get k c) as [n|] eqn:E; [|lia].
  apply dict_get_Some in E. unfold positive_counts in Hc. rewrite Forall_forall in Hc.
  specialize (Hc _ E). simpl in Hc. lia.
Qed.

Lemma positive_counts_count_elements words c :
  positive_counts c -> positive_counts (count_elements words c).
Proof.
  unfold count_elements. revert c. induction words as [|w ws IH]; intros c Hc; simpl; [done|].
  apply IH. apply positive_counts_set; [|done].
  pose proof (counter_get_nonneg w c Hc). lia.
Qed.

Lemma positive_counts_get_word_frequency text : positive_counts (get_word_frequency text).
Proof. apply positive_counts_count_elements. constructor. Qed.

Lemma positive_counts_update c other :
  positive_counts c -> positive_counts other -> positive_counts (counter_update c other).
Proof.
  unfold counter_update. intros Hc Ho. revert c Hc.
  induction Ho as [|[k v] other Hv Ho IH]; intros c Hc; simpl; [done|].
  apply IH. apply positive_counts_set; [|done].
  pose proof (counter_get_nonneg k c Hc). simpl in Hv. lia.
Qed.

Lemma counter_le_refl c : counter_le c c.
Proof. intros w. split; [lia|done]. Qed.

Lemma counter_le_trans c1 c2 c3 : counter_le c1 c2 -> counter_le c2 c3 -> counter_le c1 c3.
Proof.
  intros H12 H23 w. destruct (H12 w) as [Hle2 Hin2], (H23 w) as [Hle3 Hin3].
  split; [lia|auto].
Qed.

Lemma counter_le_set k v (c : Counter) :
  0 <= v -> counter_le c (dict_set k (v + counter_get k c) c).
Proof.
  intros Hv w. unfold counter_get, dict_in. destruct (decide (k = w)) as [->|Hne].
  - rewrite dict_get_set_eq. split; [|done]. destruct (dict_get w c); lia.
  - rewrite dict_get_set_ne by done. split; [lia|done].
Qed.

Lemma counter_le_update c other :
  positive_counts other -> counter_le c (counter_update c other).
Proof.
  unfold counter_update. intros Ho. revert c.
  induction Ho as [|[k v] other Hv Ho IH]; intros c; simpl; [apply counter_le_refl|].
  eapply counter_le_trans; [|apply IH]. apply counter_le_set. simpl in Hv. lia.
Qed.

(** ** An invariant principle for the crawl *)

Section CrawlInvariant.
Context `{DocumentSource}.
Variable R : crawl_state -> crawl_state -> Prop.
Hypothesis R_refl : forall st, R st st.
Hypothesis R_trans : forall st1 st2 st3, R st1 st2 -> R st2 st3 -> R st1 st3.
Hypothesis R_mark :
  forall article depth st, article ∉ visited st -> R st (mark_visited article depth st).
Hypothesis R_merge : forall text st, R st (merge_page text st).

Lemma for_links_invariant visit links : forall st st',
  (forall link s s', visit link s = Some s' -> R s s') ->
  for_links visit links st = Some st' -> R st st'.
Proof.
  induction links as [|link links IH]; intros st st' Hv Hr; simpl in Hr.
  - injection Hr as <-. apply R_refl.
  - destruct (decide (link ∈ visited st)); [by apply IH|].
    destruct (visit link st) as [s1|] eqn:E; [|done].
    eapply R_trans; [by eapply Hv|by apply IH].
Qed.

Lemma crawl_invariant fuel : forall article depth st st',
  crawl_wikipedia_article fuel article depth st = Some st' -> R st st'.
Proof.
  induction fuel as [|fuel IH]; intros article depth st st' Hr; simpl in Hr; [done|].
  destruct (depth =? 0); [injection Hr as <-; apply R_refl|].
  destruct (decide (article ∈ visited st)) as [|Hnew]; [injection Hr as <-; apply R_refl|].
  destruct (fetch_wikipedia_page article) as [[text links]|].
  - eapply R_trans; [by apply R_mark|].
    eapply R_trans; [apply R_merge|].
    eapply for_links_invariant; [|exact Hr]. intros link s s'. apply IH.
  - injection Hr as <-. by apply R_mark.
Qed.
End CrawlInvariant.

Section CrawlFacts.
Context `{DocumentSource}.

Lemma grows_refl st : grows st st.
Proof. split; [done|apply counter_le_refl]. Qed.

Lemma grows_trans st1 st2 st3 : grows st1 st2 -> grows st2 st3 -> grows st1 st3.
Proof.
  intros [Hv1 Hc1] [Hv2 Hc2]. split; [set_solver|by eapply counter_le_trans].
Qed.

Lemma crawl_grows fuel article depth st st' :
  crawl_wikipedia_article fuel article depth st = Some st' -> grows st st'.
Proof.
  apply crawl_invariant.
  - apply grows_refl.
  - apply grows_trans.
  - intros a d s _. split; simpl; [set_solver|apply counter_le_refl].
  - intros text s. split; simpl; [done|].
    apply counter_le_update, positive_counts_get_word_frequency.
Qed.

Lemma crawl_positive_counts fuel article depth st st' :
  crawl_wikipedia_article fuel article depth st = Some st' ->
  positive_counts (word_frequency st) -> positive_counts (word_frequency st').
Proof.
  apply (crawl_invariant
           (fun s s' => positive_counts (word_frequency s) -> positive_counts (word_frequency s'))).
  - done.
  - auto.
  - done.
  - intros text s Hs. simpl.
    apply positive_counts_update; [done|apply positive_counts_get_word_frequency].
Qed.

Lemma crawl_fetched_once fuel article depth st st' :
  crawl_wikipedia_article fuel article depth st = Some st' ->
  fetched_once st -> fetched_once st'.
Proof.
  apply (crawl_invariant (fun s s' => fetched_once s -> fetched_once s')).
  - done.
  - auto.
  - intros a d s Hnew [Hsub Hnd]. unfold fetched_once, fetched in *. simpl.
    rewrite map_app. simpl. split.
    + intros x Hx. apply elem_of_union. apply elem_of_app in Hx as [Hx|Hx].
      * right. by apply Hsub.
      * left. apply list_elem_of_singleton in Hx as ->. by apply elem_of_singleton.
    + apply NoDup_app. split; [done|]. split; [|apply NoDup_singleton].
      intros x Hx Hx'. apply list_elem_of_singleton in Hx' as ->. apply Hnew. by apply Hsub.
  - done.
Qed.

(** *** Fuel *)

Lemma for_links_mono visit visit' links : forall st st',
  (forall link s s', visit link s = Some s' -> visit' link s = Some s') ->
  for_links visit links st = Some st' -> for_links visit' links st = Some st'.
Proof.
  induction links as [|link links IH]; intros st st' Hv Hr; simpl in *; [done|].
  destruct (decide (link ∈ visited st)); [by apply IH|].
  destruct (visit link st) as [s1|] eqn:E; [|done].
  rewrite (Hv _ _ _ E). by apply IH.
Qed.

Lemma crawl_fuel_mono fuel : forall fuel' article depth st st',
  (fuel <= fuel')%nat ->
  crawl_wikipedia_article fuel article depth st = Some st' ->
  crawl_wikipedia_article fuel' article depth st = Some st'.
Proof.
  induction fuel as [|fuel IH]; intros fuel' article depth st st' Hle Hr; [done|].
  destruct fuel' as [|fuel']; [lia|]. simpl in *.
  destruct (depth =? 0); [done|].
  destruct (decide (article ∈ visited st)); [done|].
  destruct (fetch_wikipedia_page article) as [[text links]|]; [|done].
  eapply for_links_mono; [|exact Hr]. intros link s s'. apply IH. lia.
Qed.

(** *** Termination by the depth *)



(** *** Termination by the visited set *)

Section FiniteGraph.
Variable universe : gset string.
Hypothesis Hlinks : links_within universe.

Lemma unvisited_mark article depth st :
  article ∈ universe -> article ∉ visited st ->
  (size (universe ∖ visited (mark_visited article depth st))
   < size (universe ∖ visited st))%nat.
Proof.
  intros HU Hnew. simpl. apply subset_size. split.
  - intros x Hx. apply elem_of_difference in Hx as [Hx Hnx]. apply elem_of_difference.
    split; [done|]. intros Hv. apply Hnx. apply elem_of_union. by right.
  - intros Hsub. assert (Ha : article ∈ universe ∖ visited st) by (by apply elem_of_difference).
    apply Hsub in Ha. apply elem_of_difference in Ha as [_ Ha]. apply Ha.
    apply elem_of_union. left. by apply elem_of_singleton.
Qed.

Lemma unvisited_mono (v v' : gset string) :
  v ⊆ v' -> (size (universe ∖ v') <= size (universe ∖ v))%nat.
Proof.
  intros Hs. apply subseteq_size. intros x Hx. apply elem_of_difference in Hx as [Hx Hnx].
  apply elem_of_difference. split; [done|]. intros Hv. apply Hnx. by apply Hs.
Qed.

Lemma for_links_returns_finite fuel depth links : forall st,
  (forall article d s, article ∈ universe ->
     (size (universe ∖ visited s) < fuel)%nat ->
     exists s', crawl_wikipedia_article fuel article d s = Some s') ->
  (forall link, link ∈ links -> link ∈ universe) ->
  (size (universe ∖ visited st) < fuel)%nat ->
  exists st',
    for_links (fun link s => crawl_wikipedia_article fuel link depth s) links st = Some st'.
Proof.
  induction links as [|link links IH]; intros st Hcrawl HU Hsize; simpl; [eauto|].
  assert (HU' : forall l, l ∈ links -> l ∈ universe) by (intros l Hl; apply HU; by right).
  destruct (decide (link ∈ visited st)); [by apply IH|].
  destruct (Hcrawl link depth st) as [s1 E]; [apply HU; left|done|].
  rewrite E. apply IH; [done|done|].
  apply crawl_grows in E as [Hsub _].
  pose proof (unvisited_mono _ _ Hsub). lia.
Qed.

Lemma crawl_returns_finite fuel : forall article depth st,
  article ∈ universe ->
  (size (universe ∖ visited st) < fuel)%nat ->
  exists st', crawl_wikipedia_article fuel article depth st = Some st'.
Proof.
  induction fuel as [|fuel IH]; intros article depth st HU Hsize; [lia|]. simpl.
  destruct (depth =? 0); [eauto|].
  destruct (decide (article ∈ visited st)) as [|Hnew]; [eauto|].
  destruct (fetch_wikipedia_page article) as [[text links]|] eqn:Hfetch; [|eauto].
  pose proof (unvisited_mark article depth st HU Hnew) as Hlt.
  apply for_links_returns_finite.
  - intros a d s. apply IH.
  - intros link Hlink. by eapply Hlinks.
  - simpl in *. lia.
Qed.
End FiniteGraph.

Lemma links_within_union (universe : gset string) (root : string) :
  links_within universe -> links_within ({[root]} ∪ universe).
Proof.
  intros HU article text links Hf link Hl. apply elem_of_union. right. by eapply HU.
Qed.

Lemma fetched_once_fresh : fetched_once fresh.
Proof. split; [intros a Ha; by apply elem_of_nil in Ha | apply NoDup_nil_2]. Qed.

(** ** Termination, and what a crawl leaves behind *)

(** C4. When the links of every document lie in a finite set of titles, every
    crawl call returns, for every root and every depth, negative depths
    included, once the fuel is large enough; and if the fetch log had no
    title twice before the call (as in fresh accumulators), it has none
    twice after it: a title is marked visited before it is fetched. *)
Theorem crawl_terminates_without_refetch (universe : gset string) (root : string)
    (depth : Z) (st : crawl_state) :
  links_within universe ->
  fetched_once st ->
  exists fuel st',
    (forall fuel', (fuel <= fuel')%nat ->
       crawl_wikipedia_article fuel' root depth st = Some st')
    /\ NoDup (fetched st')
    /\ (forall article, article ∈ fetched st' -> article ∈ visited st').
Proof.
  intros HU Hst. set (U := {[root]} ∪ universe).
  destruct (crawl_returns_finite U (links_within_union _ root HU) (S (size U)) root depth st)
    as [st' Hst'].
  - apply elem_of_union. left. by apply elem_of_singleton.
  - assert (size (U ∖ visited st) <= size U)%nat; [|lia].
    apply subseteq_size. intros x Hx. by apply elem_of_difference in Hx as [Hx _].
  - exists (S (size U)), st'. split.
    + intros fuel' Hle. by eapply crawl_fuel_mono.
    + destruct (crawl_fetched_once _ _ _ _ _ Hst' Hst) as [Hsub Hnd]. by split.
Qed.

(** C3. A crawl with depth 0 from fresh accumulators returns at once: the
    visited set and the frequency table are empty and nothing was fetched. *)
Theorem crawl_depth_0 (root : string) (fuel : nat) :
  exists st',
    crawl_wikipedia_article (S fuel) root 0 fresh = Some st'
    /\ visited st' = ∅ /\ word_frequency st' = [] /\ fetched st' = [].
Proof. exists fresh. repeat split. Qed.

Lemma crawl_depth_0_any (article : string) (fuel : nat) (st : crawl_state) :
  crawl_wikipedia_article (S fuel) article 0 st = Some st.
Proof. reflexivity. Qed.

Lemma crawl_visited (article : string) (depth : Z) (fuel : nat) (st : crawl_state) :
  article ∈ visited st -> crawl_wikipedia_article (S fuel) article depth st = Some st.
Proof.
  intros Hv. simpl. destruct (depth =? 0); [done|]. by rewrite decide_True.
Qed.

Lemma crawl_not_found (article : string) (depth : Z) (fuel : nat) (st : crawl_state) :
  fetch_wikipedia_page article = None -> depth <> 0 -> article ∉ visited st ->
  crawl_wikipedia_article (S fuel) article depth st = Some (mark_visited article depth st).
Proof.
  intros Hf Hd Hv. simpl. rewrite (proj2 (Z.eqb_neq depth 0) Hd).
  rewrite decide_False by done. by rewrite Hf.
Qed.

(** C6. When the root is fetched (the depth is not 0) and is not found, the
    crawl returns a state, so nothing is raised; the frequency table is still
    empty, the root is in the visited set, it was fetched once, and a later
    call on it returns without another fetch. *)
Theorem crawl_root_not_found (root : string) (depth : Z) (fuel : nat) :
  fetch_wikipedia_page root = None -> depth <> 0 ->
  exists st',
    crawl_wikipedia_article (S fuel) root depth fresh = Some st'
    /\ word_frequency st' = []
    /\ root ∈ visited st'
    /\ fetched st' = [root]
    /\ (forall d n, crawl_wikipedia_article (S n) root d st' = Some st').
Proof.
  intros Hf Hd. exists (mark_visited root depth fresh).
  assert (Hin : root ∈ visited (mark_visited root depth fresh)).
  { simpl. apply elem_of_union. left. by apply elem_of_singleton. }
  split; [|split; [|split; [|split]]].
  - apply crawl_not_found; [done|done|]. simpl. apply not_elem_of_empty.
  - reflexivity.
  - exact Hin.
  - reflexivity.
  - intros d n. by apply crawl_visited.
Qed.

(** C10. A crawl call that returns has only grown its accumulators: the
    visited set contains the former one, no word counts less than before,
    and no key has left the table. *)
Theorem crawl_only_grows (fuel : nat) (article : string) (depth : Z)
    (st st' : crawl_state) :
  crawl_wikipedia_article fuel article depth st = Some st' ->
  visited st ⊆ visited st'
  /\ (forall w, counter_get w (word_frequency st) <= counter_get w (word_frequency st'))
  /\ (forall w, dict_in w (word_frequency st) = true ->
                dict_in w (word_frequency st') = true).
Proof.
  intros Hr. apply crawl_grows in Hr as [Hv Hc]. split; [done|].
  split; intros w; by destruct (Hc w).
Qed.

Lemma do_POST_no_server_error (fuel : nat) (data : post_data) :
  do_POST fuel data <> Some Response500.
Proof.
  unfold do_POST. destruct (data_article data) as [[|c article]|]; [done| |done].
  destruct (crawl_wikipedia_article _ _ _ _) as [st|] eqn:E; [|done].
  apply crawl_positive_counts in E; [|constructor].
  by rewrite (post_pipeline_positive _ _ _ E).
Qed.
End CrawlFacts.

(** ** The crawl on concrete document sources *)

Lemma cyclic_source_links_within : links_within (H := cyclic_source) {["A"; "B"]}%string.
Proof.
  intros article text links Hf link Hl.
  unfold fetch_wikipedia_page, cyclic_source in Hf.
  repeat case_decide; [| |done]; injection Hf as <- <-;
    repeat (apply elem_of_cons in Hl as [->|Hl]);
    try (by apply elem_of_nil in Hl);
    apply elem_of_union; ((left; by apply elem_of_singleton) || (right; by apply elem_of_singleton)).
Qed.

Lemma crawl_terminates_without_refetch_witness :
  exists fuel st',
    (forall fuel', (fuel <= fuel')%nat ->
       crawl_wikipedia_article (H := cyclic_source) fuel' "A" (-1) fresh = Some st')
    /\ NoDup (fetched st')
    /\ (forall article, article ∈ fetched st' -> article ∈ visited st').
Proof.
  apply (crawl_terminates_without_refetch (H := cyclic_source)
           {["A"; "B"]}%string "A" (-1) fresh).
  - apply cyclic_source_links_within.
  - apply fetched_once_fresh.
Defined.

Lemma crawl_root_not_found_witness :
  exists st',
    crawl_wikipedia_article (H := empty_source) 1 "NonExistentArticle" 1 fresh = Some st'
    /\ word_frequency st' = []
    /\ "NonExistentArticle"%string ∈ visited st'
    /\ fetched st' = ["NonExistentArticle"%string]
    /\ (forall d n,
          crawl_wikipedia_article (H := empty_source) (S n) "NonExistentArticle" d st' = Some st').
Proof.
  apply (crawl_root_not_found (H := empty_source) "NonExistentArticle" 1 0).
  - reflexivity.
  - lia.
Defined.

Lemma crawl_only_grows_witness :
  let st := {| visited := {["B"]}%string; word_frequency := [("b", 4); ("a", 1)]%string;
               stdout := [] |} in
  let st' := {| visited := {["A"; "B"; "C"]}%string;
                word_frequency := [("b", 4); ("a", 2); ("c", 1)]%string;
                stdout := [("A", 2); ("C", 1)]%string |} in
  visited st ⊆ visited st'
  /\ (forall w, counter_get w (word_frequency st) <= counter_get w (word_frequency st'))
  /\ (forall w, dict_in w (word_frequency st) = true ->
                dict_in w (word_frequency st') = true).
Proof.
  intros st st'.
  apply (crawl_only_grows (H := abc_source) 3 "A" 2 st st').
  vm_compute. reflexivity.
Defined.

Example crawl_scenario_abc :
  crawl_wikipedia_article (H := abc_source) 3 "A" 2 fresh
  = Some {| visited := {["A"; "B"; "C"]}%string;
            word_frequency := [("a", 1); ("b", 1); ("c", 1)]%string;
            stdout := [("A", 2); ("B", 1); ("C", 1)]%string |}.
Proof. vm_compute. reflexivity. Qed.

Example crawl_cycle_negative_depth :
  crawl_wikipedia_article (H := cyclic_source) 3 "A" (-1) fresh
  = Some {| visited := {["A"; "B"]}%string;
            word_frequency := [("x", 1); ("y", 2)]%string;
            stdout := [("A", -1); ("B", -2)]%string |}.
Proof. vm_compute. reflexivity. Qed.

Example crawl_out_of_fuel :
  crawl_wikipedia_article (H := cyclic_source) 1 "A" (-1) fresh = None.
Proof. vm_compute. reflexivity. Qed.

Example do_POST_ignore_case :
  do_POST (H := abc_source) 3
    {| data_article := Some "A"%string; data_depth := Some 2;
       data_ignore_list := Some ["B"]%string; data_percentile := None |}
  = Some (Response200 [("a"%string, (1, (1 / 2 * 100)%Q)); ("c"%string, (1, (1 / 2 * 100)%Q))]).
Proof. vm_compute. reflexivity. Qed.

Example do_POST_missing_article :
  do_POST (H := abc_source) 0
    {| data_article := None; data_depth := None;
       data_ignore_list := None; data_percentile := None |}
  = Some Response400.
Proof. reflexivity. Qed.

Example normalize_zero_count_raises :
  normalize_word_frequency [("a"%string, 0)] = Raise ZeroDivisionError.
Proof. reflexivity. Qed.

(** * Further properties *)

(** ** The links of a page *)

Lemma is_lower__not_colon c : is_lower_ c = true -> c <> ":"%char.
Proof. intros H ->. discriminate. Qed.

Lemma lookup_lower_prefix s i :
  (i < lower_prefix_len s)%nat -> exists c, s !! i = Some c /\ is_lower_ c = true.
Proof.
  revert i. induction s as [|c s IH]; intros i Hi; simpl in *; [lia|].
  destruct (is_lower_ c) eqn:Hc; [|lia].
  destruct i as [|i]; simpl; [eauto|]. apply IH. lia.
Qed.

Lemma colon_after_inside s n :
  (n < lower_prefix_len s)%nat -> colon_after s n = false.
Proof.
  induction n as [|n IH]; intros Hn; simpl;
    destruct (lookup_lower_prefix s _ Hn) as (c & -> & Hc);
    pose proof (is_lower__not_colon c Hc) as Hne.
  - destruct c as [[] [] [] [] [] [] [] []]; done.
  - rewrite IH by lia. destruct c as [[] [] [] [] [] [] [] []]; done.
Qed.

Lemma colon_after_prefix s :
  colon_after s (lower_prefix_len s) = bool_decide (s !! lower_prefix_len s = Some ":"%char).
Proof.
  destruct (lower_prefix_len s) as [|n] eqn:E; simpl.
  - destruct (s !! 0%nat) as [c|]; [|done].
    destruct c as [[] [] [] [] [] [] [] []]; done.
  - rewrite colon_after_inside by lia.
    destruct (s !! S n) as [c|]; [|done].
    destruct c as [[] [] [] [] [] [] [] []]; done.
Qed.

Lemma lower_prefix_split s :
  s = take (lower_prefix_len s) s ++ drop (lower_prefix_len s) s
  /\ forallb is_lower_ (take (lower_prefix_len s) s) = true.
Proof.
  split; [by rewrite take_drop|].
  induction s as [|c s IH]; simpl; [done|].
  destruct (is_lower_ c) eqn:Hc; simpl; [|done]. by rewrite Hc.
Qed.

Lemma lower_prefix_len_app run c rest :
  forallb is_lower_ run = true -> is_lower_ c = false ->
  lower_prefix_len (run ++ c :: rest) = length run.
Proof.
  intros Hrun Hc. induction run as [|a run IH]; simpl.
  - by rewrite Hc.
  - simpl in Hrun. apply andb_true_iff in Hrun as [Ha Hrun]. by rewrite Ha, IH.
Qed.

(** X17. The pattern of the special pages matches a link exactly when the
    link is a capital letter, then a run of lower-case letters and
    underscores, then a colon, whatever follows. *)
Theorem invalid_link_shape (link : string) :
  invalid_link link = true <->
  exists c run rest,
    link = str (c :: run ++ ":"%char :: rest)
    /\ is_upper c = true /\ forallb is_lower_ run = true.
Proof.
  unfold invalid_link. split.
  - destruct (chars link) as [|c s] eqn:E; [done|].
    intros [Hc Hs]%andb_true_iff. rewrite colon_after_prefix in Hs.
    apply bool_decide_eq_true in Hs.
    destruct (lower_prefix_split s) as [Hsplit Hrun].
    exists c, (take (lower_prefix_len s) s), (drop (S (lower_prefix_len s)) s).
    split; [|done].
    rewrite <- (string_of_list_ascii_of_string link). fold (chars link). rewrite E.
    unfold str. do 2 f_equal.
    rewrite Hsplit at 1. f_equal.
    by apply drop_S.
  - intros (c & run & rest & -> & Hc & Hrun). rewrite chars_str, Hc. simpl.
    rewrite colon_after_prefix. apply bool_decide_eq_true.
    rewrite lower_prefix_len_app by done.
    by rewrite lookup_app_r, Nat.sub_diag.
Qed.

Lemma invalid_link_shape_witness : invalid_link "Template_talk:Infobox" = true.
Proof.
  apply (proj2 (invalid_link_shape "Template_talk:Infobox")).
  exists "T"%char, (chars "emplate_talk"), (chars "Infobox"). repeat split.
Defined.

Lemma startswith_app p s : startswith p s = true <-> exists t, s = p ++ t.
Proof.
  revert s. induction p as [|a p IH]; intros s; simpl.
  - split; [eauto|done].
  - destruct s as [|b s]; [split; [done|by intros [t Ht]]|].
    destruct (decide (a = b)) as [->|Hne].
    + rewrite IH. split; intros [t Ht]; exists t; [by rewrite Ht|by injection Ht].
    + split; [done|]. intros [t Ht]. by injection Ht.
Qed.

Lemma chars_append a b : chars (String.append a b) = chars a ++ chars b.
Proof. induction a as [|c a IH]; simpl; [done|]. unfold chars in *. simpl. by rewrite IH. Qed.

(** X18. A link is returned exactly when the page has an anchor whose href is
    /wiki/ followed by that link and the link is not a special page; the
    links of two lists of anchors are those of the first followed by those
    of the second, so order and repetitions are kept. *)
Theorem wiki_links_elem (hrefs : list string) (link : string) :
  (link ∈ wiki_links hrefs <->
   String.append "/wiki/" link ∈ hrefs /\ invalid_link link = false)
  /\ (forall hrefs', wiki_links (hrefs ++ hrefs') = wiki_links hrefs ++ wiki_links hrefs').
Proof.
  split.
  - unfold wiki_links. rewrite list_elem_of_filter, list_elem_of_fmap. split.
    + intros [Hv (href & -> & Hin)]. apply list_elem_of_filter in Hin as [Hp Hin].
      apply startswith_app in Hp as [t Ht]. split; [|done].
      assert (E : href = String.append "/wiki/" (str (drop 6 (chars href)))); [|by rewrite <- E].
      rewrite <- (string_of_list_ascii_of_string href) at 1. fold (chars href).
      rewrite Ht. reflexivity.
    + intros [Hin Hv]. split; [done|]. exists (String.append "/wiki/" link). split.
      * rewrite chars_append. change (drop 6 (chars "/wiki/" ++ chars link)) with (chars link).
        symmetry. apply string_of_list_ascii_of_string.
      * apply list_elem_of_filter. split; [|done]. apply startswith_app.
        exists (chars link). apply chars_append.
  - intros hrefs'. unfold wiki_links. by rewrite filter_app, map_app, filter_app.
Qed.

(** ** Counters *)

Lemma counter_get_set k w x (c : Counter) :
  counter_get w (dict_set k x c) = if decide (k = w) then x else counter_get w c.
Proof.
  unfold counter_get. destruct (decide (k = w)) as [->|Hne].
  - by rewrite dict_get_set_eq.
  - by rewrite dict_get_set_ne.
Qed.

Lemma dict_in_keys {V} w (d : list (string * V)) : dict_in w d = true <-> w ∈ map fst d.
Proof.
  unfold dict_in. induction d as [|[k v] d IH]; simpl.
  - split; [done|]. intros H. by apply elem_of_nil in H.
  - destruct (decide (w = k)) as [->|Hne].
    + split; [intros _; left|done].
    + rewrite IH, elem_of_cons. split; [by right|]. by intros [?|?].
Qed.

Lemma keys_dict_set {V} k (v : V) d :
  map fst (dict_set k v d) = if dict_in k d then map fst d else map fst d ++ [k].
Proof.
  unfold dict_in. induction d as [|[k' v'] d IH]; simpl; [done|].
  destruct (decide (k = k')) as [->|Hne]; simpl; [done|].
  rewrite IH. by destruct (dict_get k d).
Qed.

Lemma unique_keys_set {V} k (v : V) d : unique_keys d -> unique_keys (dict_set k v d).
Proof.
  unfold unique_keys. intros Hd. rewrite keys_dict_set.
  destruct (dict_in k d) eqn:E; [done|].
  apply NoDup_app. split; [done|]. split; [|apply NoDup_singleton].
  intros x Hx Hk. apply list_elem_of_singleton in Hk as ->.
  apply dict_in_keys in Hx. congruence.
Qed.

Lemma total_dict_set k v (c : Counter) :
  total (dict_set k v c) = total c - counter_get k c + v.
Proof.
  unfold counter_get. induction c as [|[k' n] c IH]; simpl.
  - rewrite total_cons, !total_nil. lia.
  - destruct (decide (k = k')) as [->|Hne]; rewrite !total_cons; [lia|]. rewrite IH. lia.
Qed.

Lemma occurrences_nil w : occurrences w [] = 0.
Proof. reflexivity. Qed.

Lemma occurrences_cons w x words :
  occurrences w (x :: words) = (if decide (x = w) then 1 else 0) + occurrences w words.
Proof.
  unfold occurrences. rewrite filter_cons. destruct (decide (x = w)); simpl length; lia.
Qed.

Lemma occurrences_app w l1 l2 :
  occurrences w (l1 ++ l2) = occurrences w l1 + occurrences w l2.
Proof. unfold occurrences. rewrite filter_app, length_app. lia. Qed.

Lemma occurrences_pos w words : 0 < occurrences w words <-> w ∈ words.
Proof.
  induction words as [|x words IH].
  - rewrite occurrences_nil. split; [lia|]. intros H. by apply elem_of_nil in H.
  - rewrite occurrences_cons, elem_of_cons.
    assert (0 <= occurrences w words) by (unfold occurrences; lia).
    destruct (decide (x = w)) as [->|Hne].
    + split; [by left|lia].
    + rewrite Z.add_0_l, IH. split; [by right|]. intros [->|?]; [done|done].
Qed.

Lemma count_elements_get w words : forall c,
  counter_get w (count_elements words c) = counter_get w c + occurrences w words.
Proof.
  unfold count_elements. induction words as [|x words IH]; intros c; simpl.
  - rewrite occurrences_nil. lia.
  - rewrite IH, counter_get_set, occurrences_cons.
    destruct (decide (x = w)) as [->|Hne]; lia.
Qed.

Lemma count_elements_keys w words : forall c,
  w ∈ map fst (count_elements words c) <-> w ∈ map fst c \/ w ∈ words.
Proof.
  unfold count_elements. induction words as [|x words IH]; intros c; simpl.
  - split; [by left|]. intros [?|H]; [done|by apply elem_of_nil in H].
  - rewrite IH, keys_dict_set, elem_of_cons.
    destruct (dict_in x c) eqn:E.
    + apply dict_in_keys in E. split; [tauto|]. intros [?|[->|?]]; tauto.
    + rewrite elem_of_app, list_elem_of_singleton. tauto.
Qed.

Lemma unique_keys_count_elements words : forall c,
  unique_keys c -> unique_keys (count_elements words c).
Proof.
  unfold count_elements. induction words as [|x words IH]; intros c Hc; simpl; [done|].
  apply IH. by apply unique_keys_set.
Qed.

Lemma total_count_elements words : forall c,
  total (count_elements words c) = total c + Z.of_nat (length words).
Proof.
  unfold count_elements. induction words as [|x words IH]; intros c; simpl length; simpl foldl.
  - lia.
  - rewrite IH, total_dict_set. lia.
Qed.

Lemma get_word_frequency_get text w :
  counter_get w (get_word_frequency text) = occurrences w (tokenize text).
Proof. unfold get_word_frequency. by rewrite count_elements_get. Qed.

Lemma get_word_frequency_unique text : unique_keys (get_word_frequency text).
Proof. apply unique_keys_count_elements. apply NoDup_nil_2. Qed.

Lemma get_word_frequency_total text :
  total (get_word_frequency text) = Z.of_nat (length (tokenize text)).
Proof. unfold get_word_frequency. by rewrite total_count_elements, total_nil. Qed.

(** X1. The counter of a text counts each word as often as it stands among
    the tokens, holds exactly the words that occur, each key once, and its
    total is the number of tokens. *)
Theorem get_word_frequency_counts (text : string) (w : string) :
  counter_get w (get_word_frequency text) = occurrences w (tokenize text)
  /\ (dict_in w (get_word_frequency text) = true <-> w ∈ tokenize text)
  /\ unique_keys (get_word_frequency text)
  /\ total (get_word_frequency text) = Z.of_nat (length (tokenize text)).
Proof.
  split; [|split; [|split]].
  - apply get_word_frequency_get.
  - unfold get_word_frequency. rewrite dict_in_keys, count_elements_keys. simpl.
    split; [|by right]. intros [H|H]; [by apply elem_of_nil in H|done].
  - apply get_word_frequency_unique.
  - apply get_word_frequency_total.
Qed.

Lemma counter_get_absent w (c : Counter) : w ∉ map fst c -> counter_get w c = 0.
Proof.
  intros Hw. unfold counter_get. destruct (dict_get w c) as [n|] eqn:E; [|done].
  exfalso. apply Hw. apply dict_get_Some in E.
  apply list_elem_of_fmap. by exists (w, n).
Qed.

Lemma counter_get_cons w k v (c : Counter) :
  counter_get w ((k, v) :: c) = if decide (w = k) then v else counter_get w c.
Proof. unfold counter_get. simpl. by destruct (decide (w = k)). Qed.

Lemma counter_update_get w other : forall c,
  unique_keys other ->
  counter_get w (counter_update c other) = counter_get w c + counter_get w other.
Proof.
  unfold counter_update, unique_keys.
  induction other as [|[k v] other IH]; intros c Hu; simpl.
  - unfold counter_get at 3. simpl. lia.
  - apply NoDup_cons in Hu as [Hk Hu]. rewrite IH by done.
    rewrite counter_get_set, counter_get_cons.
    destruct (decide (k = w)) as [->|Hne].
    + rewrite decide_True by done. rewrite (counter_get_absent w other Hk). lia.
    + rewrite decide_False by done. lia.
Qed.

Lemma counter_update_total other : forall c,
  total (counter_update c other) = total c + total other.
Proof.
  unfold counter_update. induction other as [|[k v] other IH]; intros c; simpl.
  - rewrite total_nil. lia.
  - rewrite IH, total_dict_set, total_cons. simpl. lia.
Qed.

Lemma counter_update_keys w other : forall c,
  w ∈ map fst (counter_update c other) <-> w ∈ map fst c \/ w ∈ map fst other.
Proof.
  unfold counter_update. induction other as [|[k v] other IH]; intros c; simpl.
  - split; [by left|]. intros [?|H]; [done|by apply elem_of_nil in H].
  - rewrite IH, keys_dict_set, elem_of_cons.
    destruct (dict_in k c) eqn:E.
    + apply dict_in_keys in E. split; [tauto|]. intros [?|[->|?]]; tauto.
    + rewrite elem_of_app, list_elem_of_singleton. tauto.
Qed.

Lemma unique_keys_update other : forall c,
  unique_keys c -> unique_keys (counter_update c other).
Proof.
  unfold counter_update. induction other as [|[k v] other IH]; intros c Hc; simpl; [done|].
  apply IH. by apply unique_keys_set.
Qed.

(** X2. Updating a counter with another one, whose keys are unique, adds the
    counts word by word and the totals, has the keys of both, and leaves
    the keys unique. *)
Theorem counter_update_adds (c other : Counter) :
  unique_keys other ->
  (forall w, counter_get w (counter_update c other) = counter_get w c + counter_get w other)
  /\ total (counter_update c other) = total c + total other
  /\ (forall w, dict_in w (counter_update c other) = true
                <-> dict_in w c = true \/ dict_in w other = true)
  /\ (unique_keys c -> unique_keys (counter_update c other)).
Proof.
  intros Hu. split; [|split; [|split]].
  - intros w. by apply counter_update_get.
  - apply counter_update_total.
  - intros w. rewrite !dict_in_keys. apply counter_update_keys.
  - apply unique_keys_update.
Qed.

Lemma counter_update_adds_witness :
  (forall w, counter_get w (counter_update [("a", 2); ("b", 1)]%string [("b", 3); ("c", 1)]%string)
             = counter_get w [("a", 2); ("b", 1)]%string
               + counter_get w [("b", 3); ("c", 1)]%string)
  /\ total (counter_update [("a", 2); ("b", 1)]%string [("b", 3); ("c", 1)]%string)
     = total [("a", 2); ("b", 1)]%string + total [("b", 3); ("c", 1)]%string
  /\ (forall w, dict_in w (counter_update [("a", 2); ("b", 1)]%string [("b", 3); ("c", 1)]%string) = true
                <-> dict_in w [("a", 2); ("b", 1)]%string = true
                    \/ dict_in w [("b", 3); ("c", 1)]%string = true)
  /\ (unique_keys [("a", 2); ("b", 1)]%string ->
      unique_keys (counter_update [("a", 2); ("b", 1)]%string [("b", 3); ("c", 1)]%string)).
Proof.
  apply (counter_update_adds [("a", 2); ("b", 1)]%string [("b", 3); ("c", 1)]%string).
  apply (bool_decide_unpack (NoDup (map fst [("b", 3); ("c", 1)]%string))). reflexivity.
Defined.

(** ** What a crawl fetches and counts *)

Section CrawlSteps.
Context `{DocumentSource}.
Variable R : crawl_state -> crawl_state -> Prop.
Hypothesis R_refl : forall st, R st st.
Hypothesis R_trans : forall st1 st2 st3, R st1 st2 -> R st2 st3 -> R st1 st3.
Hypothesis R_found :
  forall article depth st text links,
    article ∉ visited st -> fetch_wikipedia_page article = Some (text, links) ->
    R st (merge_page text (mark_visited article depth st)).
Hypothesis R_missing :
  forall article depth st,
    article ∉ visited st -> fetch_wikipedia_page article = None ->
    R st (mark_visited article depth st).

Lemma crawl_steps fuel : forall article depth st st',
  crawl_wikipedia_article fuel article depth st = Some st' -> R st st'.
Proof.
  induction fuel as [|fuel IH]; intros article depth st st' Hr; simpl in Hr; [done|].
  destruct (depth =? 0); [injection Hr as <-; apply R_refl|].
  destruct (decide (article ∈ visited st)) as [|Hnew]; [injection Hr as <-; apply R_refl|].
  destruct (fetch_wikipedia_page article) as [[text links]|] eqn:Hf.
  - eapply R_trans; [by eapply R_found|].
    eapply (for_links_invariant R R_refl R_trans); [|exact Hr]. intros link s s'. apply IH.
  - injection Hr as <-. by apply R_missing.
Qed.
End CrawlSteps.

Section CrawlAccounts.
Context `{DocumentSource}.

Lemma accounts_refl st : accounts st st [].
Proof.
  split; [by rewrite app_nil_r|]. split; [|split].
  - simpl. by rewrite (right_id_L ∅ (∪)).
  - intros w. simpl. rewrite occurrences_nil. lia.
  - simpl. lia.
Qed.

Lemma accounts_trans st1 st2 st3 new1 new2 :
  accounts st1 st2 new1 -> accounts st2 st3 new2 -> accounts st1 st3 (new1 ++ new2).
Proof.
  intros (Ho1 & Hv1 & Hc1 & Ht1) (Ho2 & Hv2 & Hc2 & Ht2).
  split; [by rewrite Ho2, Ho1, app_assoc|]. split; [|split].
  - rewrite Hv2, Hv1, !map_app, list_to_set_app_L. by rewrite (assoc_L (∪)).
  - intros w. rewrite Hc2, Hc1, !map_app, concat_app, occurrences_app. lia.
  - rewrite Ht2, Ht1, !map_app, concat_app, length_app. lia.
Qed.

Lemma accounts_found article depth st text links :
  fetch_wikipedia_page article = Some (text, links) ->
  accounts st (merge_page text (mark_visited article depth st)) [(article, depth)].
Proof.
  intros Hf. unfold accounts, page_words. simpl. rewrite Hf, app_nil_r.
  split; [done|]. split; [|split].
  - rewrite (right_id_L ∅ (∪)). apply (comm_L (∪)).
  - intros w. rewrite counter_update_get by apply get_word_frequency_unique.
    by rewrite get_word_frequency_get.
  - by rewrite counter_update_total, get_word_frequency_total.
Qed.

Lemma accounts_missing article depth st :
  fetch_wikipedia_page article = None ->
  accounts st (mark_visited article depth st) [(article, depth)].
Proof.
  intros Hf. unfold accounts, page_words. simpl. rewrite Hf. simpl.
  split; [done|]. split; [|split].
  - rewrite (right_id_L ∅ (∪)). apply (comm_L (∪)).
  - intros w. rewrite occurrences_nil. lia.
  - lia.
Qed.

Lemma crawl_accounts_ex fuel article depth st st' :
  crawl_wikipedia_article fuel article depth st = Some st' ->
  exists new, accounts st st' new.
Proof.
  apply (crawl_steps (fun s s' => exists new, accounts s s' new)).
  - intros s. exists []. apply accounts_refl.
  - intros s1 s2 s3 [n1 H1] [n2 H2]. exists (n1 ++ n2). by eapply accounts_trans.
  - intros a d s text links _ Hf. eexists. by eapply accounts_found.
  - intros a d s _ Hf. eexists. by apply accounts_missing.
Qed.

(** X3. After a crawl from fresh accumulators no title was fetched twice, the
    visited set is the set of the fetched titles, and the table counts
    exactly the tokens of the pages fetched: every count is the number of
    occurrences in those pages together, a page that was not found giving
    none. *)
Theorem crawl_counts_fetched_pages (fuel : nat) (root : string) (depth : Z)
    (st' : crawl_state) :
  crawl_wikipedia_article fuel root depth fresh = Some st' ->
  NoDup (fetched st')
  /\ visited st' = list_to_set (fetched st')
  /\ (forall w, counter_get w (word_frequency st')
                = occurrences w (concat (map page_words (fetched st'))))
  /\ total (word_frequency st')
     = Z.of_nat (length (concat (map page_words (fetched st')))).
Proof.
  intros Hr.
  destruct (crawl_fetched_once _ _ _ _ _ Hr fetched_once_fresh) as [_ Hnd].
  destruct (crawl_accounts_ex _ _ _ _ _ Hr) as (new & Ho & Hv & Hc & Ht).
  simpl in Ho. unfold fetched in *. rewrite Ho in *. split; [done|].
  split; [|split].
  - rewrite Hv. simpl. by rewrite (left_id_L ∅ (∪)).
  - intros w. rewrite Hc. reflexivity.
  - rewrite Ht. reflexivity.
Qed.

(** *** The depth *)

Lemma crawl_log_depths fuel : forall article depth st st',
  0 <= depth ->
  crawl_wikipedia_article fuel article depth st = Some st' ->
  exists new, stdout st' = stdout st ++ new /\ Forall (fun e => 1 <= e.2 <= depth) new.
Proof.
  induction fuel as [|fuel IH]; intros article depth st st' Hd Hr; simpl in Hr; [done|].
  destruct (depth =? 0) eqn:E0.
  { injection Hr as <-. exists []. by rewrite app_nil_r. }
  apply Z.eqb_neq in E0.
  destruct (decide (article ∈ visited st)) as [|Hnew].
  { injection Hr as <-. exists []. by rewrite app_nil_r. }
  destruct (fetch_wikipedia_page article) as [[text links]|] eqn:Hf.
  - apply (for_links_invariant
             (fun s s' => exists new, stdout s' = stdout s ++ new
                                      /\ Forall (fun e => 1 <= e.2 <= depth - 1) new)) in Hr.
    + destruct Hr as (new & Ho & Hall). simpl in Ho.
      exists ((article, depth) :: new). split; [by rewrite Ho, <- app_assoc|].
      constructor; [simpl; lia|]. eapply Forall_impl; [exact Hall|]. simpl. intros e He. lia.
    + intros s. exists []. by rewrite app_nil_r.
    + intros s1 s2 s3 (n1 & Ho1 & Ha1) (n2 & Ho2 & Ha2). exists (n1 ++ n2).
      split; [by rewrite Ho2, Ho1, app_assoc|]. by apply Forall_app.
    + intros link s s' Hs. apply (IH link (depth - 1)); [lia|done].
  - injection Hr as <-. exists [(article, depth)]. split; [done|].
    constructor; [simpl; lia|constructor].
Qed.

(** X4. With a depth that is not negative, a crawl call either fetches nothing
    or fetches its article first, at the given depth, and then only articles
    at depths from 1 to depth - 1: with depth 1 the article alone. *)
Theorem crawl_respects_depth (fuel : nat) (article : string) (depth : Z)
    (st st' : crawl_state) :
  0 <= depth ->
  crawl_wikipedia_article fuel article depth st = Some st' ->
  stdout st' = stdout st
  \/ exists rest,
       stdout st' = stdout st ++ (article, depth) :: rest
       /\ Forall (fun e => 1 <= e.2 < depth) rest.
Proof.
  intros Hd Hr. destruct fuel as [|fuel]; [done|]. simpl in Hr.
  destruct (depth =? 0) eqn:E0; [injection Hr as <-; by left|].
  apply Z.eqb_neq in E0.
  destruct (decide (article ∈ visited st)) as [|Hnew]; [injection Hr as <-; by left|].
  right. destruct (fetch_wikipedia_page article) as [[text links]|] eqn:Hf.
  - apply (for_links_invariant
             (fun s s' => exists new, stdout s' = stdout s ++ new
                                      /\ Forall (fun e => 1 <= e.2 <= depth - 1) new)) in Hr.
    + destruct Hr as (new & Ho & Hall). simpl in Ho.
      exists new. split; [by rewrite Ho, <- app_assoc|].
      eapply Forall_impl; [exact Hall|]. simpl. intros e He. lia.
    + intros s. exists []. by rewrite app_nil_r.
    + intros s1 s2 s3 (n1 & Ho1 & Ha1) (n2 & Ho2 & Ha2). exists (n1 ++ n2).
      split; [by rewrite Ho2, Ho1, app_assoc|]. by apply Forall_app.
    + intros link s s' Hs. apply (crawl_log_depths fuel link (depth - 1)); [lia|done].
  - injection Hr as <-. exists []. by split.
Qed.


Lemma crawl_unique_keys fuel article depth st st' :
  crawl_wikipedia_article fuel article depth st = Some st' ->
  unique_keys (word_frequency st) -> unique_keys (word_frequency st').
Proof.
  apply (crawl_invariant
    (fun s s' => unique_keys (word_frequency s) -> unique_keys (word_frequency s')));
    [done|auto|done|].
  intros text s Hs. simpl. by apply unique_keys_update.
Qed.

(** X6. A crawl call keeps the table well formed: if each key stood once and
    every count was at least 1 before, so it is after. *)
Theorem crawl_keeps_table_wellformed (fuel : nat) (article : string) (depth : Z)
    (st st' : crawl_state) :
  crawl_wikipedia_article fuel article depth st = Some st' ->
  unique_keys (word_frequency st) -> positive_counts (word_frequency st) ->
  unique_keys (word_frequency st') /\ positive_counts (word_frequency st').
Proof.
  intros Hr Hu Hp. split; [by eapply crawl_unique_keys|by eapply crawl_positive_counts].
Qed.
End CrawlAccounts.

(** ** The stages, again *)


Lemma insert_desc_filter k x l :
  filter (fun e : string * (Z * Q) => e.2.1 = k) (insert_desc x l)
  = filter (fun e : string * (Z * Q) => e.2.1 = k) (x :: l).
Proof.
  induction l as [|y l IH]; cbn [insert_desc]; [done|].
  destruct (x.2.1 <? y.2.1) eqn:E; [|done]. apply Z.ltb_lt in E.
  rewrite (filter_cons _ x l) in IH.
  rewrite (filter_cons _ y), (filter_cons _ x (y :: l)), (filter_cons _ y l).
  revert IH. destruct (decide (y.2.1 = k)), (decide (x.2.1 = k)); intros IH.
  - lia.
  - f_equal. exact IH.
  - exact IH.
  - exact IH.
Qed.

(** X8. The sort of the response is a stable sort by decreasing count: the
    result is a permutation of the input, counts never increase along it,
    and the entries of any one count keep their order. *)
Theorem sorted_desc_stable (l : entries) :
  sorted_desc l ≡ₚ l
  /\ StronglySorted count_ge (sorted_desc l)
  /\ forall k, filter (fun e => e.2.1 = k) (sorted_desc l) = filter (fun e => e.2.1 = k) l.
Proof.
  split; [apply sorted_desc_perm|]. split; [apply sorted_desc_sorted|].
  intros k. induction l as [|x l IH]; [done|].
  cbn [sorted_desc foldr]. fold (sorted_desc l).
  rewrite insert_desc_filter, !(filter_cons _ x).
  destruct (decide (x.2.1 = k)); [f_equal|]; exact IH.
Qed.

Lemma char_lower_idem c : char_lower (char_lower c) = char_lower c.
Proof. destruct c as [[] [] [] [] [] [] [] []]; reflexivity. Qed.

Lemma lower_idem s : lower (lower s) = lower s.
Proof.
  unfold lower. rewrite chars_str. f_equal. rewrite <- list_fmap_compose.
  apply list_fmap_ext. intros _ c _. apply char_lower_idem.
Qed.

(** X9. Excluding two ignore lists one after the other is excluding their
    concatenation, in either order; the case of the ignore words does not
    matter; and the words left are those not equal to a lower-cased ignore
    word. *)
Theorem exclude_words_compose {V : Type} (l1 l2 : list string) (d : list (string * V)) :
  exclude_words (l1 ++ l2) d = exclude_words l2 (exclude_words l1 d)
  /\ exclude_words l1 (exclude_words l2 d) = exclude_words l2 (exclude_words l1 d)
  /\ exclude_words (map lower l1) d = exclude_words l1 d
  /\ (forall w, w ∈ map fst (exclude_words l1 d) <-> w ∈ map fst d /\ w ∉ map lower l1).
Proof.
  rewrite !exclude_words_filter. split; [|split; [|split]].
  - rewrite list_filter_filter. apply list_filter_iff. intros kv.
    rewrite map_app, elem_of_app. tauto.
  - rewrite !list_filter_filter. apply list_filter_iff. intros kv. tauto.
  - apply list_filter_iff. intros kv.
    assert (E : map lower (map lower l1) = map lower l1); [|by rewrite E].
    rewrite <- list_fmap_compose. apply list_fmap_ext. intros _ s _. apply lower_idem.
  - intros w. split.
    + intros Hw. apply list_elem_of_fmap in Hw as ([k v] & -> & Hin).
      apply list_elem_of_filter in Hin as [Hk Hin].
      split; [apply list_elem_of_fmap; by exists (k, v)|exact Hk].
    + intros [Hw Hk]. apply list_elem_of_fmap in Hw as ([k v] & -> & Hin).
      apply list_elem_of_fmap. exists (k, v). split; [done|].
      apply list_elem_of_filter. by split.
Qed.

(** X10. Filtering by two thresholds, in either order, is filtering by the
    greater one, and the greater threshold keeps a sublist of what the
    smaller keeps. *)
Theorem apply_percentile_threshold_compose (m : entries) (p1 p2 : Q) :
  (p1 <= p2)%Q ->
  apply_percentile_threshold (apply_percentile_threshold m p1) p2
  = apply_percentile_threshold m p2
  /\ apply_percentile_threshold (apply_percentile_threshold m p2) p1
     = apply_percentile_threshold m p2
  /\ sublist (apply_percentile_threshold m p2) (apply_percentile_threshold m p1).
Proof.
  intros Hle.
  assert (Himp : forall e : string * (Z * Q),
             Qle_bool p2 e.2.2 = true -> Qle_bool p1 e.2.2 = true).
  { intros e. rewrite !Qle_bool_iff. intros H. by eapply Qle_trans. }
  unfold apply_percentile_threshold. split; [|split].
  - by apply list_filter_filter_l.
  - by apply list_filter_filter_r.
  - rewrite <- (list_filter_filter_l (fun e : string * (Z * Q) => Qle_bool p2 e.2.2 = true)
                  (fun e : string * (Z * Q) => Qle_bool p1 e.2.2 = true) m Himp).
    apply sublist_filter.
Qed.

Lemma apply_percentile_threshold_compose_witness :
  apply_percentile_threshold
    (apply_percentile_threshold [("a"%string, (3, 75%Q)); ("b"%string, (1, 25%Q))] 1) 50
  = apply_percentile_threshold [("a"%string, (3, 75%Q)); ("b"%string, (1, 25%Q))] 50
  /\ apply_percentile_threshold
       (apply_percentile_threshold [("a"%string, (3, 75%Q)); ("b"%string, (1, 25%Q))] 50) 1
     = apply_percentile_threshold [("a"%string, (3, 75%Q)); ("b"%string, (1, 25%Q))] 50
  /\ sublist (apply_percentile_threshold [("a"%string, (3, 75%Q)); ("b"%string, (1, 25%Q))] 50)
       (apply_percentile_threshold [("a"%string, (3, 75%Q)); ("b"%string, (1, 25%Q))] 1).
Proof.
  apply (apply_percentile_threshold_compose
           [("a"%string, (3, 75%Q)); ("b"%string, (1, 25%Q))] 1 50).
  discriminate.
Defined.

(** ** The responses *)

Lemma percent_bounds n t :
  1 <= n -> n <= t -> (0 < inject_Z n / inject_Z t * 100 /\ inject_Z n / inject_Z t * 100 <= 100)%Q.
Proof.
  intros Hn Ht. destruct t as [|t|t]; [lia| |lia].
  unfold Qlt, Qle, Qdiv, Qmult, Qinv, inject_Z. simpl. lia.
Qed.


Lemma positive_counts_le_total (c : Counter) w n :
  positive_counts c -> (w, n) ∈ c -> 1 <= n <= total c.
Proof.
  unfold positive_counts. induction 1 as [|[k v] c Hv Hc IH]; intros Hin.
  - by apply elem_of_nil in Hin.
  - rewrite total_cons. simpl in Hv.
    assert (0 <= total c).
    { destruct c as [|e c]; [rewrite total_nil; lia|].
      pose proof (positive_counts_total (e :: c) Hc ltac:(done)). lia. }
    apply elem_of_cons in Hin as [[= -> ->]|Hin]; [lia|].
    specialize (IH Hin). lia.
Qed.







Section Handlers.
Context `{DocumentSource}.

Lemma crawl_fresh_wellformed fuel article depth st :
  crawl_wikipedia_article fuel article depth fresh = Some st ->
  unique_keys (word_frequency st) /\ positive_counts (word_frequency st).
Proof.
  intros Hr. split.
  - eapply crawl_unique_keys; [exact Hr|]. apply NoDup_nil_2.
  - eapply crawl_positive_counts; [exact Hr|]. constructor.
Qed.




Context `{IntParser}.



(** X16. With no ignore list and a percentile of 0 or less, do_POST answers
    the body of do_GET for the same article and depth, sorted by decreasing
    count. *)
Theorem do_POST_sorts_do_GET (fuel : nat) (query_params : list (string * list string))
    (data : post_data) (m : entries) :
  first_value "title" None Some query_params = Some (data_article data) ->
  first_value "depth" (Some 1) py_int query_params
  = Some (Some (default 1 (data_depth data))) ->
  default [] (data_ignore_list data) = [] ->
  (default 1 (data_percentile data) <= 0)%Q ->
  do_GET fuel query_params = Some (Response200 m) ->
  do_POST fuel data = Some (Response200 (sorted_desc m)).
Proof.
  intros Ht Hd Hil Hp. unfold do_GET, do_POST. rewrite Ht, Hd, Hil.
  destruct (data_article data) as [[|c article]|]; [done| |done].
  destruct (crawl_wikipedia_article _ _ _ _) as [st|] eqn:E; [|done].
  destruct (crawl_fresh_wellformed _ _ _ _ E) as [_ Hpos].
  rewrite (normalize_word_frequency_positive _ Hpos). intros [= <-].
  rewrite (post_pipeline_positive _ _ _ Hpos). do 3 f_equal.
  change (exclude_words [] (word_frequency st)) with (word_frequency st).
  apply filter_all. intros e He.
  apply list_elem_of_fmap in He as ([w n] & -> & Hin). simpl.
  apply Qle_bool_iff. eapply Qle_trans; [exact Hp|].
  destruct (positive_counts_le_total _ _ _ Hpos Hin) as [H1 Hle].
  apply Qlt_le_weak. by apply percent_bounds.
Qed.
End Handlers.

(** ** Texts in pieces *)

Lemma chunks_app_sep p s1 c s2 :
  p c = false -> chunks p (s1 ++ c :: s2) = chunks p s1 ++ chunks p s2.
Proof.
  intros Hc. induction s1 as [|a s1 IH]; simpl.
  - by rewrite Hc.
  - rewrite IH. destruct (p a); [|done].
    destruct (chunks_cons p s1) as (h & t & ->). reflexivity.
Qed.

Lemma findall_app_sep s1 c s2 :
  is_word c = false -> findall (s1 ++ c :: s2) = findall s1 ++ findall s2.
Proof.
  intros Hc. rewrite !findall_runs. unfold runs.
  by rewrite chunks_app_sep, !filter_app.
Qed.

Lemma is_word_char_lower c : is_word (char_lower c) = is_word c.
Proof. destruct c as [[] [] [] [] [] [] [] []]; reflexivity. Qed.

Lemma chars_lower s : chars (lower s) = map char_lower (chars s).
Proof. unfold lower. apply chars_str. Qed.

(** X19. The tokens of two texts joined by a character that is not a word
    character are the tokens of the first followed by those of the second,
    and the counter of the joined text counts every word as often as the
    counters of the two texts together. *)
Theorem tokenize_pieces (text1 text2 : string) (c : ascii) :
  is_word c = false ->
  tokenize (String.append text1 (String c text2)) = tokenize text1 ++ tokenize text2
  /\ forall w,
       counter_get w (get_word_frequency (String.append text1 (String c text2)))
       = counter_get w (get_word_frequency text1) + counter_get w (get_word_frequency text2).
Proof.
  intros Hc.
  assert (E : tokenize (String.append text1 (String c text2))
              = tokenize text1 ++ tokenize text2).
  { assert (Ec : chars (lower (String.append text1 (String c text2)))
                 = chars (lower text1) ++ char_lower c :: chars (lower text2)).
    { rewrite !chars_lower, chars_append.
      change (chars (String c text2)) with (c :: chars text2).
      by rewrite map_app, map_cons. }
    unfold tokenize. rewrite Ec.
    rewrite findall_app_sep by (by rewrite is_word_char_lower).
    by rewrite map_app. }
  split; [exact E|]. intros w.
  by rewrite !get_word_frequency_get, E, occurrences_app.
Qed.

Lemma tokenize_pieces_witness :
  tokenize (String.append "Hello world" (String "," "hello again"))
  = tokenize "Hello world" ++ tokenize "hello again"
  /\ forall w,
       counter_get w (get_word_frequency (String.append "Hello world" (String "," "hello again")))
       = counter_get w (get_word_frequency "Hello world")
         + counter_get w (get_word_frequency "hello again").
Proof. apply (tokenize_pieces "Hello world" "hello again" ","). reflexivity. Defined.

(** X20. Lower-casing a text beforehand changes neither its tokens nor its
    counter. *)
Theorem tokenize_ignores_case (text : string) :
  tokenize (lower text) = tokenize text
  /\ get_word_frequency (lower text) = get_word_frequency text.
Proof.
  assert (E : tokenize (lower text) = tokenize text).
  { unfold tokenize. by rewrite lower_idem. }
  split; [exact E|]. unfold get_word_frequency. by rewrite E.
Qed.

Example wiki_links_example :
  wiki_links ["/wiki/Python"; "#cite_note-1"; "/wiki/File:Logo.png"; "https://example.org/";
              "/wiki/Help:Contents"; "/wiki/MediaWiki:Common.css"; "/wiki/Python";
              "/wiki/Star_wars:_Rebels"]%string
  = ["Python"; "MediaWiki:Common.css"; "Python"]%string.
Proof. reflexivity. Qed.

(** ** The further properties on concrete requests *)

Lemma crawl_counts_fetched_pages_witness :
  let st' := {| visited := {["A"; "B"; "C"]}%string;
                word_frequency := [("a", 1); ("b", 1); ("c", 1)]%string;
                stdout := [("A", 2); ("B", 1); ("C", 1)]%string |} in
  NoDup (fetched st')
  /\ visited st' = list_to_set (fetched st')
  /\ (forall w, counter_get w (word_frequency st')
                = occurrences w (concat (map (page_words (H := abc_source)) (fetched st'))))
  /\ total (word_frequency st')
     = Z.of_nat (length (concat (map (page_words (H := abc_source)) (fetched st')))).
Proof.
  intros st'. apply (crawl_counts_fetched_pages (H := abc_source) 3 "A" 2 st').
  vm_compute. reflexivity.
Defined.

Lemma crawl_respects_depth_witness :
  let st' := {| visited := {["A"; "B"; "C"]}%string;
                word_frequency := [("a", 1); ("b", 1); ("c", 1)]%string;
                stdout := [("A", 2); ("B", 1); ("C", 1)]%string |} in
  stdout st' = stdout fresh
  \/ exists rest,
       stdout st' = stdout fresh ++ ("A"%string, 2) :: rest
       /\ Forall (fun e => 1 <= e.2 < 2) rest.
Proof.
  intros st'. apply (crawl_respects_depth (H := abc_source) 3 "A" 2 fresh st').
  - lia.
  - vm_compute. reflexivity.
Defined.


Lemma crawl_keeps_table_wellformed_witness :
  let st' := {| visited := {["A"; "B"; "C"]}%string;
                word_frequency := [("a", 1); ("b", 1); ("c", 1)]%string;
                stdout := [("A", 2); ("B", 1); ("C", 1)]%string |} in
  unique_keys (word_frequency st') /\ positive_counts (word_frequency st').
Proof.
  intros st'. apply (crawl_keeps_table_wellformed (H := abc_source) 3 "A" 2 fresh st').
  - vm_compute. reflexivity.
  - apply NoDup_nil_2.
  - constructor.
Defined.






Lemma do_POST_sorts_do_GET_witness :
  do_POST (H := abc_source) 3
    {| data_article := Some "A"%string; data_depth := Some 2;
       data_ignore_list := None; data_percentile := Some 0%Q |}
  = Some (Response200 (sorted_desc abc_body)).
Proof.
  apply (do_POST_sorts_do_GET (H := abc_source) (H0 := decimal_int) 3
           [("title", ["A"]); ("depth", ["2"])]%string).
  - reflexivity.
  - reflexivity.
  - reflexivity.
  - simpl. apply Qle_refl.
  - reflexivity.
Defined.
